(** * Offset manager of sarama (offset_manager.go)

    A shallow embedding of the offset manager registry, the partition
    offset managers and the broker offset managers, with the objects the
    Go code shares by pointer kept in two stores, and the properties of
    the specification stated over it. *)

From Stdlib Require Import ZArith Lia.
From stdpp Require Import gmap strings list fin_maps.

Open Scope Z_scope.

(** ** Errors *)

(** [KError] is the broker's per-partition error code.  The code under
    study only distinguishes the four codes its switch statements name;
    every other code is [ErrOtherCode n]. *)
Inductive KError :=
  | ErrNoError
  | ErrUnknownTopicOrPartition
  | ErrNotLeaderForPartition
  | ErrLeaderNotAvailable
  | ErrOtherCode (n : Z).

(** Values of Go's [error] interface that occur in the file.  [ErrTransport]
    stands for whatever error the client or the broker connection returns. *)
Inductive error :=
  | ErrIncompleteResponse
  | ErrClosedClient
  | ConfigurationError (msg : string)
  | ErrKError (k : KError)
  | ErrTransport (msg : string).

#[global] Instance KError_eq_dec : EqDecision KError.
Proof. solve_decision. Defined.

#[global] Instance error_eq_dec : EqDecision error.
Proof. solve_decision. Defined.

(** ** Channels

    A Go channel with capacity [cap]: [buf] holds the buffered values,
    oldest first, and [blocked] the values of the senders that are
    suspended in a send because the buffer is full (for an unbuffered
    channel every sender waits there until a receiver takes its value). *)
Record chan (A : Type) := mkChan {
  cap : nat;
  buf : list A;
  blocked : list A;
  closed : bool
}.
Arguments mkChan {A}.
Arguments cap {A}.
Arguments buf {A}.
Arguments blocked {A}.
Arguments closed {A}.

(** make(chan A, n) *)
Definition make_chan {A} (n : nat) : chan A := mkChan n [] [] false.

(** ch <- x.  When the buffer is full the sender is suspended: its value
    waits in [blocked], in the order of arrival.  (A send on a closed
    channel panics in Go; the model does not tell it apart.) *)
Definition chan_send {A} (x : A) (c : chan A) : chan A :=
  if (length (buf c) <? cap c)%nat
  then mkChan (cap c) (buf c ++ [x]) (blocked c) (closed c)
  else mkChan (cap c) (buf c) (blocked c ++ [x]) (closed c).

(** <-ch : the oldest value, and the channel after the receive (the oldest
    suspended sender moves into the slot that became free).  [None] when
    there is nothing to receive. *)
Definition chan_recv {A} (c : chan A) : option (A * chan A) :=
  match buf c ++ blocked c with
  | [] => None
  | x :: rest =>
      Some (x, mkChan (cap c) (take (cap c) rest) (drop (cap c) rest) (closed c))
  end.

(** close(ch) *)
Definition chan_close {A} (c : chan A) : chan A :=
  mkChan (cap c) (buf c) (blocked c) true.

(** Values handed to the channel and not yet received. *)
Definition chan_pending {A} (c : chan A) : list A := buf c ++ blocked c.

(** ** The objects *)

(** Go's [int] on a 64-bit platform. *)
Definition wrap_int (z : Z) : Z := (z + 2 ^ 63) mod 2 ^ 64 - 2 ^ 63.

(** [partitionOffsetManager]; [broker] is the pointer to the broker offset
    manager ([None] is nil), an index into the store of broker managers.
    [running] records that [go withRecover(pom.mainLoop)] was executed. *)
Record partitionOffsetManager := mkPom {
  topic : string;
  partition : Z;
  offset : Z;
  metadata : string;
  broker : option nat;
  errors : chan error;
  rebalance : chan unit;
  running : bool
}.

(** [brokerOffsetManager]; [bom_broker] identifies the [*Broker],
    [timer] tells whether the ticker runs, the channel and the set hold
    pointers to partition managers. *)
Record brokerOffsetManager := mkBom {
  bom_broker : nat;
  timer : bool;
  newSubscriptions : chan nat;
  subscriptions : gset nat;
  refs : Z
}.

(** The registry [offsetManager] together with the two stores its pointers
    refer to, the brokers whose connection was closed and the lines
    written to the logger. *)
Record world := mkWorld {
  group : string;
  ReturnErrors : bool;        (* conf.Consumer.Return.Errors *)
  ChannelBufferSize : nat;    (* conf.ChannelBufferSize *)
  poms : gmap string (gmap Z nat);
  boms : gmap nat nat;
  pomH : list partitionOffsetManager;
  bomH : list brokerOffsetManager;
  closedBrokers : list nat;
  logged : list error
}.

(** A registry with empty mappings, for a group and a configuration. *)
Definition newOffsetManager (g : string) (ret : bool) (sz : nat) : world :=
  mkWorld g ret sz ∅ ∅ [] [] [] [].

(** NewOffsetManagerFromClient; the struct literal leaves [group] at its
    zero value.  [ret] and [sz] are the two options read from
    client.Config(). *)
Definition NewOffsetManagerFromClient (clientClosed : bool)
    (ret : bool) (sz : nat) : error + world :=
  if clientClosed then inl ErrClosedClient else inr (newOffsetManager "" ret sz).

Definition with_poms (m : gmap string (gmap Z nat)) (w : world) : world :=
  mkWorld (group w) (ReturnErrors w) (ChannelBufferSize w) m (boms w)
          (pomH w) (bomH w) (closedBrokers w) (logged w).

Definition with_boms (m : gmap nat nat) (w : world) : world :=
  mkWorld (group w) (ReturnErrors w) (ChannelBufferSize w) (poms w) m
          (pomH w) (bomH w) (closedBrokers w) (logged w).

Definition with_pomH (h : list partitionOffsetManager) (w : world) : world :=
  mkWorld (group w) (ReturnErrors w) (ChannelBufferSize w) (poms w) (boms w)
          h (bomH w) (closedBrokers w) (logged w).

Definition with_bomH (h : list brokerOffsetManager) (w : world) : world :=
  mkWorld (group w) (ReturnErrors w) (ChannelBufferSize w) (poms w) (boms w)
          (pomH w) h (closedBrokers w) (logged w).

Definition with_closedBrokers (l : list nat) (w : world) : world :=
  mkWorld (group w) (ReturnErrors w) (ChannelBufferSize w) (poms w) (boms w)
          (pomH w) (bomH w) l (logged w).

Definition with_logged (l : list error) (w : world) : world :=
  mkWorld (group w) (ReturnErrors w) (ChannelBufferSize w) (poms w) (boms w)
          (pomH w) (bomH w) (closedBrokers w) l.

(** Update through a pointer. *)
Definition upd_pom (p : nat) (f : partitionOffsetManager -> partitionOffsetManager)
    (w : world) : world :=
  with_pomH (alter f p (pomH w)) w.

Definition upd_bom (b : nat) (f : brokerOffsetManager -> brokerOffsetManager)
    (w : world) : world :=
  with_bomH (alter f b (bomH w)) w.

Definition set_offset (v : Z) (s : partitionOffsetManager) :=
  mkPom (topic s) (partition s) v (metadata s) (broker s) (errors s)
        (rebalance s) (running s).

Definition set_metadata (m : string) (s : partitionOffsetManager) :=
  mkPom (topic s) (partition s) (offset s) m (broker s) (errors s)
        (rebalance s) (running s).

Definition set_broker (b : option nat) (s : partitionOffsetManager) :=
  mkPom (topic s) (partition s) (offset s) (metadata s) b (errors s)
        (rebalance s) (running s).

Definition set_errors (c : chan error) (s : partitionOffsetManager) :=
  mkPom (topic s) (partition s) (offset s) (metadata s) (broker s) c
        (rebalance s) (running s).

Definition set_rebalance (c : chan unit) (s : partitionOffsetManager) :=
  mkPom (topic s) (partition s) (offset s) (metadata s) (broker s) (errors s)
        c (running s).

Definition set_running (r : bool) (s : partitionOffsetManager) :=
  mkPom (topic s) (partition s) (offset s) (metadata s) (broker s) (errors s)
        (rebalance s) r.

Definition set_timer (t : bool) (m : brokerOffsetManager) :=
  mkBom (bom_broker m) t (newSubscriptions m) (subscriptions m) (refs m).

Definition set_newSubscriptions (c : chan nat) (m : brokerOffsetManager) :=
  mkBom (bom_broker m) (timer m) c (subscriptions m) (refs m).

Definition set_subscriptions (s : gset nat) (m : brokerOffsetManager) :=
  mkBom (bom_broker m) (timer m) (newSubscriptions m) s (refs m).

Definition set_refs (r : Z) (m : brokerOffsetManager) :=
  mkBom (bom_broker m) (timer m) (newSubscriptions m) (subscriptions m) r.

(** ** Partition offset manager: accessors *)

(** The accessors take the manager's lock, which a sequential model leaves
    out: each call is one atomic step. *)
Definition SetOffset (p : nat) (v : Z) (w : world) : world :=
  upd_pom p (set_offset v) w.

Definition SetMetadata (p : nat) (m : string) (w : world) : world :=
  upd_pom p (set_metadata m) w.

Definition Offset (p : nat) (w : world) : option Z :=
  offset <$> pomH w !! p.

Definition Metadata (p : nat) (w : world) : option string :=
  metadata <$> pomH w !! p.

(** AsyncClose has an empty body; Close calls it and returns nil. *)
Definition AsyncClose (p : nat) (w : world) : world := w.

Definition Close (p : nat) (w : world) : world * option error :=
  (AsyncClose p w, None).

(** pom.handleError *)
Definition handleError (p : nat) (err : error) (w : world) : world :=
  if ReturnErrors w
  then upd_pom p (fun s => set_errors (chan_send err (errors s)) s) w
  else with_logged (logged w ++ [err]) w.

(** s.rebalance <- none{} *)
Definition signal_rebalance (p : nat) (w : world) : world :=
  upd_pom p (fun s => set_rebalance (chan_send tt (rebalance s)) s) w.

(** ** The collaborators

    The coordinator client and the broker connections are outside the
    file.  An operation of the model takes the answers they give during
    that operation. *)

(** OffsetFetchRequest as fetchInitialOffset fills it in. *)
Record OffsetFetchRequest := mkFetchRequest {
  fr_Version : Z;
  fr_ConsumerGroup : string;
  fr_partitions : list (string * Z)
}.

Record OffsetFetchResponseBlock := mkFetchBlock {
  fb_Offset : Z;
  fb_Metadata : string;
  fb_Err : KError
}.

(** OffsetFetchResponse{per (topic, partition): offset, metadata, errorCode} *)
Record OffsetFetchResponse := mkFetchResponse {
  fetch_Blocks : gmap string (gmap Z OffsetFetchResponseBlock)
}.

(** Modelled from the spec: [GetBlock] is declared with the wire messages,
    outside this file; it returns the block of the (topic, partition), or
    nil when the response lacks one. *)
Definition GetBlock (r : OffsetFetchResponse) (t : string) (part : Z)
    : option OffsetFetchResponseBlock :=
  fetch_Blocks r !! t ≫= fun m => m !! part.

(** One block of an OffsetCommitRequest: the arguments of one AddBlock
    call (topic, partition, offset, timestamp, metadata). *)
Record commitBlock := mkCommitBlock {
  cb_topic : string;
  cb_partition : Z;
  cb_offset : Z;
  cb_timestamp : Z;
  cb_metadata : string
}.

(** The request under construction: the AddBlock calls made on it, in
    the order they were made. *)
Definition OffsetCommitRequest := list commitBlock.

(** OffsetCommitResponse{per topic: per partition: errorCode} *)
Record OffsetCommitResponse := mkCommitResponse {
  commit_Errors : gmap string (gmap Z KError)
}.

Record client := mkClient {
  RefreshCoordinator : string -> option error;
  Coordinator : string -> error + nat;
  FetchOffset : nat -> OffsetFetchRequest -> error + OffsetFetchResponse;
  (* the Go pair (response, err); the response pointer may be nil *)
  CommitOffset : nat -> OffsetCommitRequest ->
                 option OffsetCommitResponse * option error
}.

(** ** The registry *)

(** om.newBrokerOffsetManager: a ticker, an unbuffered attach channel and
    an empty subscription set; the manager's task is started. *)
Definition newBrokerOffsetManager (brk : nat) : brokerOffsetManager :=
  mkBom brk true (make_chan 0) ∅ 0.

Definition incr_refs (m : brokerOffsetManager) : brokerOffsetManager :=
  set_refs (wrap_int (refs m + 1)) m.

(** om.refBrokerOffsetManager *)
Definition refBrokerOffsetManager (brk : nat) (w : world) : nat * world :=
  match boms w !! brk with
  | Some b => (b, upd_bom b incr_refs w)
  | None =>
      let b := length (bomH w) in
      let w1 := with_boms (<[brk := b]> (boms w))
                  (with_bomH (bomH w ++ [newBrokerOffsetManager brk]) w) in
      (b, upd_bom b incr_refs w1)
  end.

Definition close_newSubscriptions (m : brokerOffsetManager) :=
  set_newSubscriptions (chan_close (newSubscriptions m)) m.

(** om.unrefBrokerOffsetManager *)
Definition unrefBrokerOffsetManager (b : nat) (w : world) : world :=
  match bomH w !! b with
  | None => w
  | Some m =>
      let r := wrap_int (refs m - 1) in
      let w1 := upd_bom b (set_refs r) w in
      if decide (r = 0) then
        let w2 := upd_bom b close_newSubscriptions w1 in
        if decide (boms w !! bom_broker m = Some b)
        then with_boms (delete (bom_broker m) (boms w2)) w2
        else w2
      else w1
  end.

(** om.abandonBroker *)
Definition abandonBroker (b : nat) (w : world) : world :=
  match bomH w !! b with
  | None => w
  | Some m => with_boms (delete (bom_broker m) (boms w)) w
  end.

(** ** Partition offset manager *)

Definition attach (p : nat) (m : brokerOffsetManager) : brokerOffsetManager :=
  set_newSubscriptions (chan_send p (newSubscriptions m)) m.

(** pom.selectBroker.  The send on the attach channel leaves the manager
    among the channel's suspended senders until the broker manager's loop
    takes it. *)
Definition selectBroker (e : client) (p : nat) (w : world)
    : world * option error :=
  let w1 := match pomH w !! p ≫= broker with
            | Some b => upd_pom p (set_broker None)
                          (unrefBrokerOffsetManager b w)
            | None => w
            end in
  match RefreshCoordinator e (group w1) with
  | Some err => (w1, Some err)
  | None =>
      match Coordinator e (group w1) with
      | inl err => (w1, Some err)
      | inr brk =>
          let '(b, w2) := refBrokerOffsetManager brk w1 in
          (upd_bom b (attach p) (upd_pom p (set_broker (Some b)) w2), None)
      end
  end.

(** pom.fetchInitialOffset.  The outer [None] is a nil dereference
    (pom.broker or the manager it points to is missing).  In the last
    branch the Go code returns the variable [err], which holds nil there. *)
Definition fetchInitialOffset (e : client) (p : nat) (w : world)
    : option (world * option error) :=
  s ← pomH w !! p;
  b ← broker s;
  m ← bomH w !! b;
  let request := mkFetchRequest 1 (group w) [(topic s, partition s)] in
  match FetchOffset e (bom_broker m) request with
  | inl err => Some (w, Some err)
  | inr response =>
      let err : option error := None in
      match GetBlock response (topic s) (partition s) with
      | None => Some (w, Some ErrIncompleteResponse)
      | Some block =>
          match fb_Err block with
          | ErrNoError =>
              Some (upd_pom p (fun s => set_metadata (fb_Metadata block)
                                          (set_offset (fb_Offset block) s)) w,
                    None)
          | _ => Some (w, err)
          end
      end
  end.

(** om.newPartitionOffsetManager; the new object lives at the end of the
    store. *)
Definition newPartitionOffsetManager (e : client) (t : string) (part : Z)
    (w : world) : option (world * (error + nat)) :=
  let p := length (pomH w) in
  let pom := mkPom t part 0 "" None (make_chan (ChannelBufferSize w))
                   (make_chan 1) false in
  let w0 := with_pomH (pomH w ++ [pom]) w in
  let '(w1, r) := selectBroker e p w0 in
  match r with
  | Some err => Some (w1, inl err)
  | None =>
      '(w2, r2) ← fetchInitialOffset e p w1;
      match r2 with
      | Some err => Some (w2, inl err)
      | None => Some (upd_pom p (set_running true) w2, inr p)
      end
  end.

(** om.ManagePartition *)
Definition ManagePartition (e : client) (t : string) (part : Z) (w : world)
    : option (world * (error + nat)) :=
  '(w1, r) ← newPartitionOffsetManager e t part w;
  match r with
  | inl err => Some (w1, inl err)
  | inr pom =>
      let topicManagers := default ∅ (poms w1 !! t) in
      let w2 := match poms w1 !! t with
                | None => with_poms (<[t := ∅]> (poms w1)) w1
                | Some _ => w1
                end in
      match topicManagers !! part with
      | Some _ =>
          Some (w2, inl (ConfigurationError
                           "That topic/partition is already being managed"))
      | None =>
          Some (with_poms (<[t := <[part := pom]> topicManagers]> (poms w2)) w2,
                inr pom)
      end
  end.

(** One iteration of pom.mainLoop: take a rebalance signal, select the
    broker again, and on failure report the error and re-arm the signal.
    [None] when no signal is there to take (the task stays suspended). *)
Definition pom_mainLoop_iter (e : client) (p : nat) (w : world)
    : option world :=
  s ← pomH w !! p;
  '(_, c) ← chan_recv (rebalance s);
  let w1 := upd_pom p (set_rebalance c) w in
  let '(w2, r) := selectBroker e p w1 in
  match r with
  | Some err => Some (signal_rebalance p (handleError p err w2))
  | None => Some w2
  end.

(** ** Broker offset manager *)

(** How a step of a broker manager's task ends. *)
Inductive outcome :=
  | Returned (w : world)    (* the call returned, the loop goes on *)
  | Exited (w : world)      (* mainLoop returned *)
  | Panicked (w : world)    (* nil pointer dereference *)
  | Suspended (w : world).  (* inside abort, waiting on the attach channel *)

Definition outcome_world (o : outcome) : world :=
  match o with
  | Returned w | Exited w | Panicked w | Suspended w => w
  end.

(** bom.constructRequest.  Go visits the keys of a map in an order of its
    choosing: [order] is the order of this visit. *)
Definition constructRequest (order : list nat) (w : world)
    : OffsetCommitRequest :=
  foldl (fun r s =>
           match pomH w !! s with
           | Some pm => r ++ [mkCommitBlock (topic pm) (partition pm)
                                            (offset pm) 0 (metadata pm)]
           | None => r
           end) [] order.

Definition notify_abort (err : error) (s : nat) (w : world) : world :=
  signal_rebalance s (handleError s err w).

(** The last loop of bom.abort, [for s := range bom.newSubscriptions]: it
    takes every manager waiting in the attach channel and returns once the
    channel is closed; while the channel is open and empty it waits. *)
Definition abort_drain (err : error) (b : nat) (w : world) : outcome :=
  match bomH w !! b with
  | None => Returned w
  | Some m =>
      let c := newSubscriptions m in
      let w1 := upd_bom b (set_newSubscriptions
                             (mkChan (cap c) [] [] (closed c))) w in
      let w2 := foldl (fun w s => notify_abort err s w) w1 (chan_pending c) in
      if closed c then Returned w2 else Suspended w2
  end.

(** bom.abort *)
Definition abort (err : error) (order : list nat) (b : nat) (w : world)
    : outcome :=
  match bomH w !! b with
  | None => Returned w
  | Some m =>
      let w1 := abandonBroker b w in
      let w2 := with_closedBrokers (closedBrokers w1 ++ [bom_broker m]) w1 in
      let w3 := foldl (fun w s => notify_abort err s w) w2 order in
      abort_drain err b w3
  end.

Definition drop_subscription (s : nat) (m : brokerOffsetManager) :=
  set_subscriptions (subscriptions m ∖ {[s]}) m.

Definition incomplete (b s : nat) (w : world) : world :=
  signal_rebalance s
    (upd_bom b (drop_subscription s) (handleError s ErrIncompleteResponse w)).

(** The body of the loop of flushToBroker over the subscriptions, for the
    subscription [s]; [None] is the nil dereference of [response]. *)
Definition flush_one (response : option OffsetCommitResponse) (b s : nat)
    (w : world) : option world :=
  resp ← response;
  match pomH w !! s with
  | None => Some w
  | Some pm =>
      match commit_Errors resp !! topic pm with
      | None => Some (incomplete b s w)
      | Some perTopic =>
          match perTopic !! partition pm with
          | None => Some (incomplete b s w)
          | Some ErrNoError => Some w
          | Some ErrUnknownTopicOrPartition
          | Some ErrNotLeaderForPartition
          | Some ErrLeaderNotAvailable =>
              Some (signal_rebalance s (upd_bom b (drop_subscription s) w))
          | Some err =>
              Some (signal_rebalance s
                      (upd_bom b (drop_subscription s)
                         (handleError s (ErrKError err) w)))
          end
      end
  end.

Fixpoint flush_loop (response : option OffsetCommitResponse) (b : nat)
    (order : list nat) (w : world) : outcome :=
  match order with
  | [] => Returned w
  | s :: rest =>
      match flush_one response b s w with
      | None => Panicked w
      | Some w' => flush_loop response b rest w'
      end
  end.

(** The three visits of the subscription set in one flush. *)
Record orders := mkOrders {
  ord_request : list nat;
  ord_abort : list nat;
  ord_response : list nat
}.

(** What flushToBroker does once abort has returned: there is no return
    after the call of abort, the loop over the subscriptions follows. *)
Definition after_abort (response : option OffsetCommitResponse) (o : orders)
    (b : nat) (r : outcome) : outcome :=
  match r with
  | Returned w1 => flush_loop response b (ord_response o) w1
  | other => other
  end.

(** What flushToBroker does with the answer of CommitOffset. *)
Definition flush_with (answer : option OffsetCommitResponse * option error)
    (o : orders) (b : nat) (w : world) : outcome :=
  let '(response, err) := answer in
  match err with
  | Some er => after_abort response o b (abort er (ord_abort o) b w)
  | None => flush_loop response b (ord_response o) w
  end.

(** bom.flushToBroker *)
Definition flushToBroker (e : client) (o : orders) (b : nat) (w : world)
    : outcome :=
  match bomH w !! b with
  | None => Returned w
  | Some m =>
      let request := constructRequest (ord_request o) w in
      flush_with (CommitOffset e (bom_broker m) request) o b w
  end.

(** A task suspended in abort goes on when the attach channel has been
    closed or has a new sender. *)
Definition abort_resume (err : error) (response : option OffsetCommitResponse)
    (o : orders) (b : nat) (w : world) : outcome :=
  after_abort response o b (abort_drain err b w).

Definition subscribe (s : nat) (c : chan nat) (m : brokerOffsetManager) :=
  set_subscriptions ({[s]} ∪ subscriptions m) (set_newSubscriptions c m).

(** The second case of the select in bom.mainLoop; [None] when the channel
    is open and nobody is sending. *)
Definition bom_receive (b : nat) (w : world) : option outcome :=
  m ← bomH w !! b;
  match chan_recv (newSubscriptions m) with
  | Some (s, c) => Some (Returned (upd_bom b (subscribe s c) w))
  | None =>
      if closed (newSubscriptions m)
      then Some (Exited (upd_bom b (set_timer false) w))
      else None
  end.

(** The first case of the select: a tick of the timer. *)
Definition bom_tick (e : client) (o : orders) (b : nat) (w : world) : outcome :=
  flushToBroker e o b w.






(** ** A concrete run: Scenario A of the specification *)

Module Scenario.

Definition response42 : OffsetFetchResponse :=
  mkFetchResponse {[ "orders"%string := {[ 0 := mkFetchBlock 42 "m" ErrNoError ]} ]}.

(** A client whose coordinator is broker 7 and whose commits fail at the
    transport level, with a nil response as the Go convention has it. *)
Definition coordinator7 : client :=
  mkClient (fun _ => None) (fun _ => inr 7%nat) (fun _ _ => inr response42)
           (fun _ _ => (None, Some (ErrTransport "EOF"))).

Definition initial : world := newOffsetManager "" true 4.

(** After ManagePartition("orders", 0). *)
Definition managed : world :=
  match ManagePartition coordinator7 "orders" 0 initial with
  | Some (w, _) => w
  | None => initial
  end.

(** After the broker manager's loop has taken the new subscription. *)
Definition attached : world :=
  match bom_receive 0 managed with
  | Some o => outcome_world o
  | None => managed
  end.

End Scenario.



Module Moved.

(** The commit succeeds and reports "not leader for partition" for
    ("orders", 0). *)
Definition responseNotLeader : OffsetCommitResponse :=
  mkCommitResponse {[ "orders"%string := {[ 0 := ErrNotLeaderForPartition ]} ]}.

Definition coordinator7 : client :=
  mkClient (fun _ => None) (fun _ => inr 7%nat)
           (fun _ _ => inr Scenario.response42)
           (fun _ _ => (Some responseNotLeader, None)).

Definition visit : orders := mkOrders [0%nat] [0%nat] [0%nat].

End Moved.


Module Twice.

(** Two triggers on the manager of Scenario A, and the two iterations of
    its loop that follow. *)
Definition triggered : world :=
  signal_rebalance 0 (signal_rebalance 0 Scenario.attached).

Definition first : world :=
  default triggered (pom_mainLoop_iter Scenario.coordinator7 0 triggered).


End Twice.

Module Abort.

Definition visit : orders := mkOrders [0%nat] [0%nat] [0%nat].

Definition failure : error := ErrTransport "EOF".

(** The flush of the broker manager of Scenario A, whose commit fails at
    the transport level: the task is inside abort, waiting on the attach
    channel. *)
Definition aborting : world :=
  outcome_world (flushToBroker Scenario.coordinator7 visit 0 Scenario.attached).

(** The partition manager's loop takes the rebalance signal and selects
    its broker again; its unref closes the attach channel of the
    abandoned broker manager. *)
Definition rebalanced : world :=
  default aborting (pom_mainLoop_iter Scenario.coordinator7 0 aborting).

(** A commit response without any entry. *)
Definition emptyResponse : OffsetCommitResponse := mkCommitResponse ∅.

End Abort.

(** ** Invariants of the registry *)

(** The broker pointers of the partition managers, the reference counts of
    the broker managers and the (topic, partition) of the partition
    managers, store index by store index. *)
Definition pom_ptrs (w : world) : list (option nat) := broker <$> pomH w.

Definition bom_refs (w : world) : list Z := refs <$> bomH w.

Definition pom_keys (w : world) : list (string * Z) :=
  (fun pm => (topic pm, partition pm)) <$> pomH w.

(** The number of partition managers that point at the broker manager [b]. *)
Definition count_ptr (b : nat) (ptrs : list (option nat)) : nat :=
  length (filter (fun o => o = Some b) ptrs).

Definition pointing (b : nat) (w : world) : nat := count_ptr b (pom_ptrs w).

Definition indicator (P : Prop) `{Decision P} : nat := if decide P then 1 else 0.

(** The reference-count invariant, with the two facts about pointers it
    rests on: the registry and the partition managers only point at broker
    managers that exist. *)
Record refcount_inv (w : world) : Prop := mkRefcountInv {
  inv_registry : forall brk b,
    boms w !! brk = Some b -> (b < length (bomH w))%nat;
  inv_pointers : forall p b,
    pom_ptrs w !! p = Some (Some b) -> (b < length (bomH w))%nat;
  inv_refs : forall b m,
    bomH w !! b = Some m -> refs m = Z.of_nat (pointing b w)
}.

(** Every entry of the partition mapping leads to a manager of that
    (topic, partition). *)
Definition registry_ok (w : world) : Prop :=
  forall t perTopic part p,
    poms w !! t = Some perTopic -> perTopic !! part = Some p ->
    pom_keys w !! p = Some (t, part).

(** The registry holds the manager [p] for the pair (t, part). *)
Definition entry (w : world) (t : string) (part : Z) (p : nat) : Prop :=
  exists perTopic, poms w !! t = Some perTopic /\ perTopic !! part = Some p.

(** Two entries of the registry whose managers are managers of the same
    (topic, partition) are one entry: no pair has two managers. *)
Definition no_two_managers (w : world) : Prop :=
  forall t1 part1 p1 t2 part2 p2,
    entry w t1 part1 p1 -> entry w t2 part2 p2 ->
    pom_keys w !! p1 = pom_keys w !! p2 ->
    t1 = t2 /\ part1 = part2 /\ p1 = p2.

(** The steps of the system: the calls of the public interface and the
    steps the background tasks take.  A step that is not enabled gives
    [None]. *)
Inductive label :=
  | LManagePartition (e : client) (t : string) (part : Z)
  | LRebalance (e : client) (p : nat)
  | LReceive (b : nat)
  | LTick (e : client) (o : orders) (b : nat)
  | LResume (err : error) (response : option OffsetCommitResponse)
            (o : orders) (b : nat)
  | LSetOffset (p : nat) (v : Z)
  | LSetMetadata (p : nat) (m : string)
  | LClose (p : nat).

Definition step (l : label) (w : world) : option world :=
  match l with
  | LManagePartition e t part => fst <$> ManagePartition e t part w
  | LRebalance e p => pom_mainLoop_iter e p w
  | LReceive b => outcome_world <$> bom_receive b w
  | LTick e o b => Some (outcome_world (bom_tick e o b w))
  | LResume err response o b =>
      Some (outcome_world (abort_resume err response o b w))
  | LSetOffset p v => Some (SetOffset p v w)
  | LSetMetadata p m => Some (SetMetadata p m w)
  | LClose p => Some (Close p w).1
  end.

(** The worlds that sequences of steps lead to from a new registry.  (The
    steps of a task are allowed at any time, also when the task has ended;
    this only adds worlds.) *)
Inductive reachable : world -> Prop :=
  | reachable_new g ret sz : reachable (newOffsetManager g ret sz)
  | reachable_step l w w' :
      reachable w -> step l w = Some w' -> reachable w'.

(** The size of the store of partition managers stays below the range of
    Go's int. *)
Definition bounded (w : world) : Prop :=
  Z.of_nat (length (pomH w)) < 2 ^ 63.

(** What the other steps leave alone. *)
Record frame (w w' : world) : Prop := mkFrame {
  frame_keys : pom_keys w' = pom_keys w;
  frame_poms : poms w' = poms w;
  frame_ptrs : pom_ptrs w' = pom_ptrs w;
  frame_refs : bom_refs w' = bom_refs w;
  frame_boms : boms w' ⊆ boms w
}.

(** The broker manager as unrefBrokerOffsetManager leaves it. *)
Definition unref_result (m : brokerOffsetManager) : brokerOffsetManager :=
  let r := wrap_int (refs m - 1) in
  if decide (r = 0) then close_newSubscriptions (set_refs r m) else set_refs r m.

(** What selectBroker does to the world before it asks the client. *)
Definition released (p : nat) (w : world) : world :=
  match pomH w !! p ≫= broker with
  | Some b => upd_pom p (set_broker None) (unrefBrokerOffsetManager b w)
  | None => w
  end.

(** The struct literal of newPartitionOffsetManager, and the world once
    the object is in the store. *)
Definition new_pom (t : string) (part : Z) (w : world) : partitionOffsetManager :=
  mkPom t part 0 "" None (make_chan (ChannelBufferSize w)) (make_chan 1) false.

Definition allocated (t : string) (part : Z) (w : world) : world :=
  with_pomH (pomH w ++ [new_pom t part w]) w.

(** The error of ManagePartition for an occupied pair. *)
Definition already_managed : error :=
  ConfigurationError "That topic/partition is already being managed".

Module Duplicate.

(** A client that cannot reach the coordinator. *)
Definition unreachable : client :=
  mkClient (fun _ => Some (ErrTransport "no coordinator"))
           (fun _ => inl (ErrTransport "no coordinator"))
           (fun _ _ => inl (ErrTransport "no coordinator"))
           (fun _ _ => (None, Some (ErrTransport "no coordinator"))).

End Duplicate.

(** The claim of C1 about a call for an occupied pair, as a property of
    the code: such a call returns a configuration error. *)
Definition duplicate_gives_configuration_error : Prop :=
  forall (e : client) (t : string) (part : Z) (w : world) (orig : nat),
    reachable w -> entry w t part orig ->
    exists w' msg,
      ManagePartition e t part w = Some (w', inl (ConfigurationError msg)).

Module Shared.

(** Scenario B: the coordinator of both partitions is broker 7. *)
Definition response : OffsetFetchResponse :=
  mkFetchResponse
    {[ "orders"%string := {[ 0 := mkFetchBlock 42 "m" ErrNoError;
                             1 := mkFetchBlock 17 "n" ErrNoError ]} ]}.

Definition coordinator7 : client :=
  mkClient (fun _ => None) (fun _ => inr 7%nat) (fun _ _ => inr response)
           (fun _ _ => (None, Some (ErrTransport "EOF"))).

(** Later the coordinator is broker 8. *)
Definition coordinator8 : client :=
  mkClient (fun _ => None) (fun _ => inr 8%nat) (fun _ _ => inr response)
           (fun _ _ => (None, Some (ErrTransport "EOF"))).

Definition one : world :=
  default Scenario.initial
    (step (LManagePartition coordinator7 "orders" 0) Scenario.initial).

Definition two : world :=
  default one (step (LManagePartition coordinator7 "orders" 1) one).

(** The manager of partition 0 is told to rebalance and moves to the
    manager of broker 8. *)
Definition detached : world :=
  default two (step (LRebalance coordinator8 0) (signal_rebalance 0 two)).

End Shared.

Module ErrorCode.

(** The coordinator answers the fetch for ("orders", 0) with the error
    code "not leader for partition". *)
Definition responseNotLeader : OffsetFetchResponse :=
  mkFetchResponse
    {[ "orders"%string := {[ 0 := mkFetchBlock (-1) "" ErrNotLeaderForPartition ]} ]}.

Definition coordinator7 : client :=
  mkClient (fun _ => None) (fun _ => inr 7%nat)
           (fun _ _ => inr responseNotLeader)
           (fun _ _ => (None, Some (ErrTransport "EOF"))).

End ErrorCode.

(** ** Further definitions for the properties of the code *)



Module Commit.

(** Clients of Scenario A whose commit is answered with a given response
    and no transport error. *)
Definition answering (r : OffsetCommitResponse) : client :=
  mkClient (fun _ => None) (fun _ => inr 7%nat)
           (fun _ _ => inr Scenario.response42)
           (fun _ _ => (Some r, None)).

Definition accepted : OffsetCommitResponse :=
  mkCommitResponse {[ "orders"%string := {[ 0 := ErrNoError ]} ]}.



Definition visit : orders := mkOrders [0%nat] [0%nat] [0%nat].

(** The manager and the broker manager of Scenario A, once attached. *)
Definition pom0 : partitionOffsetManager :=
  mkPom "orders" 0 42 "m" (Some 0%nat) (make_chan 4) (make_chan 1) true.

Definition bom0 : brokerOffsetManager :=
  mkBom 7 true (make_chan 0) {[0%nat]} 1.

End Commit.

(** A channel in which senders only wait while the buffer is full. *)
Definition chan_wf {A} (c : chan A) : Prop :=
  (length (buf c) <= cap c)%nat
  /\ ((length (buf c) < cap c)%nat -> blocked c = []).


Module Retry.

(** A client whose coordinator refresh always fails. *)
Definition failure : error := ErrTransport "no coordinator".

Definition refusing : client :=
  mkClient (fun _ => Some failure) (fun _ => inr 7%nat)
           (fun _ _ => inr Scenario.response42)
           (fun _ _ => (None, Some failure)).


End Retry.

(** The broker and the state of the attach channel of the broker
    managers, store index by store index. *)
Definition bom_ids (w : world) : list (nat * bool) :=
  (fun m => (bom_broker m, closed (newSubscriptions m))) <$> bomH w.

(** The registry maps a broker to a manager of that broker whose attach
    channel is open, and a manager whose attach channel is closed has no
    reference left. *)
Record open_inv (w : world) : Prop := mkOpenInv {
  open_registered : forall brk b,
    boms w !! brk = Some b -> bom_ids w !! b = Some (brk, false);
  open_closed_unreferenced : forall b m,
    bomH w !! b = Some m -> closed (newSubscriptions m) = true -> refs m = 0
}.

(** Steps that leave the brokers and the attach channels' state alone. *)
Definition same_ids (w w' : world) : Prop := bom_ids w' = bom_ids w.

Module FetchFails.

(** The coordinator is broker 7, and every offset fetch fails. *)
Definition failure : error := ErrTransport "broken pipe".

Definition coordinator7 : client :=
  mkClient (fun _ => None) (fun _ => inr 7%nat) (fun _ _ => inl failure)
           (fun _ _ => (None, Some failure)).

End FetchFails.

(** The channels of a partition manager as newPartitionOffsetManager
    makes them: an error channel of the configured capacity and a
    rebalance channel of capacity 1, both open, with senders waiting only
    while the buffer is full. *)
Definition pom_chans_ok (sz : nat) (pm : partitionOffsetManager) : Prop :=
  cap (errors pm) = sz /\ chan_wf (errors pm) /\ closed (errors pm) = false
  /\ cap (rebalance pm) = 1%nat /\ chan_wf (rebalance pm)
  /\ closed (rebalance pm) = false.

(** The attach channel of a broker manager is unbuffered. *)
Definition bom_chan_ok (m : brokerOffsetManager) : Prop :=
  cap (newSubscriptions m) = 0%nat /\ buf (newSubscriptions m) = [].

Definition channels_ok (w : world) : Prop :=
  Forall (pom_chans_ok (ChannelBufferSize w)) (pomH w)
  /\ Forall bom_chan_ok (bomH w).

(** Steps that keep the channels as above and the configuration as it is. *)
Definition keeps_channels (w w' : world) : Prop :=
  ChannelBufferSize w' = ChannelBufferSize w
  /\ (channels_ok w -> channels_ok w').

Module Rebalance.

(** Scenario A after a flush whose response said "not leader for
    partition": the manager has a rebalance signal pending. *)
Definition moved : world :=
  outcome_world
    (flushToBroker Moved.coordinator7 Moved.visit 0 Scenario.attached).

End Rebalance.

(** Conjunctions of closed equations, each decided by evaluation. *)
Ltac by_computation :=
  repeat match goal with |- _ /\ _ => split end; vm_compute; reflexivity.

(** ** Lookups through the update functions *)

Lemma lookup_upd_pom_eq p f w :
  pomH (upd_pom p f w) !! p = f <$> pomH w !! p.
Proof. unfold upd_pom; simpl. apply list_lookup_alter_eq. Qed.

Lemma lookup_upd_pom_ne p q f w :
  p ≠ q -> pomH (upd_pom p f w) !! q = pomH w !! q.
Proof. intros Hne. unfold upd_pom; simpl. by apply list_lookup_alter_ne. Qed.

Lemma lookup_upd_bom_eq b f w :
  bomH (upd_bom b f w) !! b = f <$> bomH w !! b.
Proof. unfold upd_bom; simpl. apply list_lookup_alter_eq. Qed.

Lemma lookup_upd_bom_ne b c f w :
  b ≠ c -> bomH (upd_bom b f w) !! c = bomH w !! c.
Proof. intros Hne. unfold upd_bom; simpl. by apply list_lookup_alter_ne. Qed.

Lemma lookup_pom_proj {A} (g : partitionOffsetManager -> A) f p q w :
  (forall s, g (f s) = g s) ->
  g <$> pomH (upd_pom p f w) !! q = g <$> pomH w !! q.
Proof.
  intros Hg. destruct (decide (p = q)) as [->|Hne].
  - rewrite lookup_upd_pom_eq. destruct (pomH w !! q); simpl; [|done].
    by rewrite Hg.
  - by rewrite lookup_upd_pom_ne.
Qed.

(** ** Accessors *)







(** C10: SetOffset changes the offset of the manager it is called on and
    nothing else: the metadata, topic and partition of every manager, the
    registry and the broker managers stay as they were; SetMetadata
    likewise changes only the metadata and leaves every offset, topic and
    partition as it was. *)
Theorem accessors_frame (p q : nat) (v : Z) (m : string) (w : world) :
  (Metadata q (SetOffset p v w) = Metadata q w
   /\ topic <$> pomH (SetOffset p v w) !! q = topic <$> pomH w !! q
   /\ partition <$> pomH (SetOffset p v w) !! q = partition <$> pomH w !! q
   /\ broker <$> pomH (SetOffset p v w) !! q = broker <$> pomH w !! q
   /\ poms (SetOffset p v w) = poms w
   /\ bomH (SetOffset p v w) = bomH w)
  /\
  (Offset q (SetMetadata p m w) = Offset q w
   /\ topic <$> pomH (SetMetadata p m w) !! q = topic <$> pomH w !! q
   /\ partition <$> pomH (SetMetadata p m w) !! q = partition <$> pomH w !! q
   /\ broker <$> pomH (SetMetadata p m w) !! q = broker <$> pomH w !! q
   /\ poms (SetMetadata p m w) = poms w
   /\ bomH (SetMetadata p m w) = bomH w).
Proof.
  unfold Metadata, Offset, SetOffset, SetMetadata.
  repeat split; try reflexivity; by apply lookup_pom_proj.
Qed.



(** C7: when the fetch response has a block for the manager's (topic,
    partition) with error code none, fetchInitialOffset succeeds and the
    offset and metadata become the block's; when the response has no such
    block it fails with ErrIncompleteResponse.  Scenario A: a coordinator
    answering offset 42 and metadata "m" for ("orders", 0) gives a manager
    with Offset() = 42 and Metadata() = "m". *)
Theorem fetchInitialOffset_initializes
    (e : client) (p b : nat) (w : world) (s : partitionOffsetManager)
    (m : brokerOffsetManager) (resp : OffsetFetchResponse) :
  pomH w !! p = Some s ->
  broker s = Some b ->
  bomH w !! b = Some m ->
  FetchOffset e (bom_broker m)
    (mkFetchRequest 1 (group w) [(topic s, partition s)]) = inr resp ->
  (forall blk,
     GetBlock resp (topic s) (partition s) = Some blk ->
     fb_Err blk = ErrNoError ->
     exists w',
       fetchInitialOffset e p w = Some (w', None)
       /\ Offset p w' = Some (fb_Offset blk)
       /\ Metadata p w' = Some (fb_Metadata blk))
  /\ (GetBlock resp (topic s) (partition s) = None ->
      fetchInitialOffset e p w = Some (w, Some ErrIncompleteResponse))
  /\ (exists w',
        ManagePartition Scenario.coordinator7 "orders" 0 Scenario.initial
          = Some (w', inr 0%nat)
        /\ Offset 0 w' = Some 42 /\ Metadata 0 w' = Some "m"%string).
Proof.
  intros Hp Hb Hm Hf. split; [|split].
  - intros blk Hblk Herr. unfold fetchInitialOffset.
    rewrite Hp; simpl. rewrite Hb; simpl. rewrite Hm; simpl.
    rewrite Hf, Hblk, Herr. eexists. split; [reflexivity|].
    unfold Offset, Metadata. rewrite lookup_upd_pom_eq, Hp. done.
  - intros Hblk. unfold fetchInitialOffset.
    rewrite Hp; simpl. rewrite Hb; simpl. rewrite Hm; simpl.
    by rewrite Hf, Hblk.
  - exists Scenario.managed. by vm_compute.
Qed.

Lemma fetchInitialOffset_initializes_witness :
  exists w',
    fetchInitialOffset Scenario.coordinator7 0 Scenario.attached
      = Some (w', None)
    /\ Offset 0 w' = Some 42 /\ Metadata 0 w' = Some "m"%string.
Proof.
  assert (Hp : pomH Scenario.attached !! 0%nat =
               Some (mkPom "orders" 0 42 "m" (Some 0%nat) (make_chan 4)
                           (make_chan 1) true))
    by (vm_compute; reflexivity).
  assert (Hm : bomH Scenario.attached !! 0%nat =
               Some (mkBom 7 true (make_chan 0) {[0%nat]} 1))
    by (vm_compute; reflexivity).
  destruct (fetchInitialOffset_initializes Scenario.coordinator7 0 0
              Scenario.attached _ _ Scenario.response42 Hp eq_refl Hm eq_refl)
    as [Hok _].
  apply (Hok (mkFetchBlock 42 "m" ErrNoError)); reflexivity.
Defined.

(** C3 fails on the code: with a block whose error code is "not leader for
    partition", fetchInitialOffset returns nil (the variable it returns is
    the transport error, which is nil there), so ManagePartition succeeds
    and hands out a manager whose offset is still the zero value. *)
Theorem fetchInitialOffset_error_code_returns_nil :
  exists w,
    ManagePartition ErrorCode.coordinator7 "orders" 0 Scenario.initial
      = Some (w, inr 0%nat)
    /\ fetchInitialOffset ErrorCode.coordinator7 0 w = Some (w, None)
    /\ Offset 0 w = Some 0.
Proof.
  eexists. split; [vm_compute; reflexivity|]. by_computation.
Qed.

(** C8 fails on the code: AsyncClose and Close change nothing.  On the
    manager of Scenario A the attachment stays (the manager still points
    at its broker manager, whose reference count is still 1 and which
    still has it subscribed) and the background task keeps running. *)
Theorem Close_changes_nothing :
  (forall p w, AsyncClose p w = w /\ Close p w = (w, None))
  /\ (broker <$> pomH (Close 0 Scenario.attached).1 !! 0%nat = Some (Some 0%nat)
      /\ running <$> pomH (Close 0 Scenario.attached).1 !! 0%nat = Some true
      /\ refs <$> bomH (Close 0 Scenario.attached).1 !! 0%nat = Some 1
      /\ elements (subscriptions
           (default (newBrokerOffsetManager 0)
              (bomH (Close 0 Scenario.attached).1 !! 0%nat))) = [0%nat]).
Proof.
  split; [intros p w; split; reflexivity|]. by_computation.
Qed.

(** ** The loop of flushToBroker over the subscriptions *)

Lemma pomH_handleError_ne s s' err w :
  s' ≠ s -> pomH (handleError s' err w) !! s = pomH w !! s.
Proof.
  intros Hne. unfold handleError. destruct (ReturnErrors w); [|done].
  by rewrite lookup_upd_pom_ne.
Qed.

Lemma bomH_handleError s err w : bomH (handleError s err w) = bomH w.
Proof. unfold handleError. by destruct (ReturnErrors w). Qed.

Lemma flush_one_other resp b s s' w :
  s' ≠ s ->
  exists w',
    flush_one (Some resp) b s' w = Some w'
    /\ pomH w' !! s = pomH w !! s
    /\ forall m, bomH w !! b = Some m ->
         exists m', bomH w' !! b = Some m'
                    /\ (s ∈ subscriptions m' <-> s ∈ subscriptions m).
Proof.
  intros Hne.
  assert (Hdrop : forall w0,
            pomH w0 !! s = pomH w !! s -> bomH w0 = bomH w ->
            pomH (signal_rebalance s' (upd_bom b (drop_subscription s') w0)) !! s
              = pomH w !! s
            /\ forall m, bomH w !! b = Some m ->
                 exists m',
                   bomH (signal_rebalance s' (upd_bom b (drop_subscription s') w0))
                     !! b = Some m'
                   /\ (s ∈ subscriptions m' <-> s ∈ subscriptions m)).
  { intros w0 Hp Hb. split.
    - unfold signal_rebalance. by rewrite lookup_upd_pom_ne.
    - intros m Hm. unfold signal_rebalance. simpl.
      rewrite list_lookup_alter_eq, Hb, Hm. eexists. split; [reflexivity|].
      simpl. rewrite elem_of_difference, elem_of_singleton.
      split; [tauto|]. intros Hin. split; [done|congruence]. }
  assert (Hhe : forall err, pomH (handleError s' err w) !! s = pomH w !! s).
  { intros err. by apply pomH_handleError_ne. }
  unfold flush_one, incomplete; simpl.
  destruct (pomH w !! s') as [pm'|] eqn:Hpm'.
  2:{ exists w. split; [reflexivity|]. split; [reflexivity|]. eauto. }
  destruct (commit_Errors resp !! topic pm') as [perTopic|];
    [|eexists; split; [reflexivity|]; apply Hdrop;
      [apply Hhe|apply bomH_handleError]].
  destruct (perTopic !! partition pm') as [k|];
    [|eexists; split; [reflexivity|]; apply Hdrop;
      [apply Hhe|apply bomH_handleError]].
  destruct k; (eexists; split; [reflexivity|]).
  - by eauto.
  - by apply Hdrop.
  - by apply Hdrop.
  - by apply Hdrop.
  - apply Hdrop; [apply Hhe|apply bomH_handleError].
Qed.

Lemma flush_loop_other resp b s order : forall w,
  s ∉ order ->
  exists w',
    flush_loop (Some resp) b order w = Returned w'
    /\ pomH w' !! s = pomH w !! s
    /\ forall m, bomH w !! b = Some m ->
         exists m', bomH w' !! b = Some m'
                    /\ (s ∈ subscriptions m' <-> s ∈ subscriptions m).
Proof.
  induction order as [|s' order IH]; intros w Hnot.
  - exists w. by eauto.
  - apply not_elem_of_cons in Hnot as [Hne Hnot]. cbn [flush_loop].
    destruct (flush_one_other resp b s s' w) as (w1 & -> & Hp1 & Hb1); [done|].
    destruct (IH w1 Hnot) as (w2 & Hrun & Hp2 & Hb2).
    exists w2. split; [done|]. split; [congruence|].
    intros m Hm. destruct (Hb1 m Hm) as (m1 & Hm1 & Hiff1).
    destruct (Hb2 m1 Hm1) as (m2 & Hm2 & Hiff2).
    exists m2. split; [done|]. tauto.
Qed.

Lemma flush_loop_app resp b l1 l2 w w1 :
  flush_loop resp b l1 w = Returned w1 ->
  flush_loop resp b (l1 ++ l2) w = flush_loop resp b l2 w1.
Proof.
  revert w. induction l1 as [|s l1 IH]; intros w H; simpl in *.
  - congruence.
  - destruct (flush_one resp b s w); [by apply IH|done].
Qed.



(** ** The rebalance signal *)

Lemma chan_send_cap {A} (x : A) c : cap (chan_send x c) = cap c.
Proof. unfold chan_send. by destruct (_ <? _)%nat. Qed.




Lemma chan_recv_pending {A} (c c' : chan A) (x : A) :
  chan_recv c = Some (x, c') -> chan_pending c = x :: chan_pending c'.
Proof.
  unfold chan_recv, chan_pending.
  destruct (buf c ++ blocked c) as [|y rest]; [done|].
  intros H; inversion H; subst; simpl. by rewrite take_drop.
Qed.





(** C2 fails on the code in its last part.  On the broker manager of
    Scenario A a commit that fails at the transport level runs abort: the
    registry entry is removed, the connection closed, and the subscribed
    partition gets the failure and a rebalance signal.  But when abort
    returns (the attach channel has been closed by the partition's unref)
    flushToBroker does not return: it goes on to the loop over the
    subscriptions, where it dereferences the nil response and panics; with
    a response that is not nil it handles the subscription a second time
    (a second error, a second rebalance signal). *)
Theorem flush_goes_on_after_abort :
  flushToBroker Scenario.coordinator7 Abort.visit 0 Scenario.attached
    = Suspended Abort.aborting
  /\ boms Abort.aborting !! 7%nat = None
  /\ closedBrokers Abort.aborting = [7%nat]
  /\ errors <$> pomH Abort.aborting !! 0%nat
       = Some (mkChan 4 [Abort.failure] [] false)
  /\ rebalance <$> pomH Abort.aborting !! 0%nat
       = Some (mkChan 1 [tt] [] false)
  /\ pom_mainLoop_iter Scenario.coordinator7 0 Abort.aborting
       = Some Abort.rebalanced
  /\ (closed ∘ newSubscriptions) <$> bomH Abort.rebalanced !! 0%nat = Some true
  /\ abort_resume Abort.failure None Abort.visit 0 Abort.rebalanced
       = Panicked Abort.rebalanced
  /\ exists w,
       abort_resume Abort.failure (Some Abort.emptyResponse) Abort.visit 0
         Abort.rebalanced = Returned w
       /\ errors <$> pomH w !! 0%nat
            = Some (mkChan 4 [Abort.failure; ErrIncompleteResponse] [] false)
       /\ rebalance <$> pomH w !! 0%nat = Some (mkChan 1 [tt] [] false).
Proof.
  do 8 (split; [vm_compute; reflexivity|]).
  eexists. split; [vm_compute; reflexivity|]. by_computation.
Qed.

(** ** Counting pointers *)

Lemma fmap_alter_same {A B} (g : A -> B) (f : A -> A) (i : nat) (l : list A) :
  (forall x, g (f x) = g x) -> g <$> alter f i l = g <$> l.
Proof.
  intros Hg. revert i. induction l as [|x l IH]; intros [|i]; csimpl;
    try done.
  - by rewrite Hg.
  - by rewrite IH.
Qed.

Lemma fmap_alter_insert {A B} (g : A -> B) (f : A -> A) (y : B) (i : nat)
    (l : list A) :
  (forall x, g (f x) = y) -> g <$> alter f i l = <[i := y]> (g <$> l).
Proof.
  intros Hg. revert i. induction l as [|x l IH]; intros [|i]; csimpl;
    try done.
  - by rewrite Hg.
  - by rewrite IH.
Qed.

Lemma count_ptr_cons b o l :
  count_ptr b (o :: l) = (indicator (o = Some b) + count_ptr b l)%nat.
Proof.
  unfold count_ptr, indicator. rewrite filter_cons.
  by destruct (decide (o = Some b)).
Qed.

Lemma count_ptr_insert b p old new (l : list (option nat)) :
  l !! p = Some old ->
  (count_ptr b (<[p := new]> l) + indicator (old = Some b)
   = count_ptr b l + indicator (new = Some b))%nat.
Proof.
  revert p. induction l as [|o l IH]; intros [|p] Hp; simpl in *; try done.
  - inversion Hp; subst. rewrite !count_ptr_cons. lia.
  - rewrite !count_ptr_cons. specialize (IH p Hp). lia.
Qed.

Lemma count_ptr_app b l1 l2 :
  count_ptr b (l1 ++ l2) = (count_ptr b l1 + count_ptr b l2)%nat.
Proof. unfold count_ptr. by rewrite filter_app, length_app. Qed.

Lemma count_ptr_le b l : (count_ptr b l <= length l)%nat.
Proof. unfold count_ptr. apply length_filter. Qed.

Lemma count_ptr_zero b (l : list (option nat)) :
  (forall p, l !! p <> Some (Some b)) -> count_ptr b l = 0%nat.
Proof.
  induction l as [|o l IH]; intros Hno; [done|].
  rewrite count_ptr_cons, IH.
  - unfold indicator. destruct (decide (o = Some b)) as [->|]; [|done].
    by destruct (Hno 0%nat).
  - intros p. apply (Hno (S p)).
Qed.

Lemma count_ptr_pos b p (l : list (option nat)) :
  l !! p = Some (Some b) -> (1 <= count_ptr b l)%nat.
Proof.
  intros Hp.
  pose proof (count_ptr_insert b p (Some b) None l Hp) as H.
  unfold indicator in H.
  destruct (decide (Some b = Some b)); [|done].
  destruct (decide (None = Some b)); [done|]. lia.
Qed.

Lemma wrap_int_small z : - 2 ^ 63 <= z < 2 ^ 63 -> wrap_int z = z.
Proof. intros Hz. unfold wrap_int. rewrite Z.mod_small; lia. Qed.

(** ** The registry operations and the invariant *)

Lemma alter_as_insert {A} (f : A -> A) (i : nat) (l : list A) (x : A) :
  l !! i = Some x -> alter f i l = <[i := f x]> l.
Proof.
  revert i. induction l as [|y l IH]; intros [|i] Hi; simpl in *; try done.
  - by inversion Hi.
  - f_equal. by apply IH.
Qed.

Lemma unref_bomH b w m :
  bomH w !! b = Some m ->
  bomH (unrefBrokerOffsetManager b w) = <[b := unref_result m]> (bomH w).
Proof.
  intros Hm. unfold unrefBrokerOffsetManager, unref_result. rewrite Hm.
  simpl. destruct (decide (wrap_int (refs m - 1) = 0)) as [Hz|Hz].
  - assert (bomH (upd_bom b close_newSubscriptions
                    (upd_bom b (set_refs (wrap_int (refs m - 1))) w))
            = <[b := close_newSubscriptions
                       (set_refs (wrap_int (refs m - 1)) m)]> (bomH w)) as H.
    { unfold upd_bom; simpl. rewrite list_alter_alter_eq.
      by rewrite (alter_as_insert _ _ _ m Hm). }
    destruct (decide (boms w !! bom_broker m = Some b)); exact H.
  - unfold upd_bom; simpl. by apply alter_as_insert.
Qed.

Lemma unref_pomH b w : pomH (unrefBrokerOffsetManager b w) = pomH w.
Proof.
  unfold unrefBrokerOffsetManager. destruct (bomH w !! b) as [m|]; [|done].
  simpl. destruct (decide _); [|done]. by destruct (decide _).
Qed.

Lemma unref_poms b w : poms (unrefBrokerOffsetManager b w) = poms w.
Proof.
  unfold unrefBrokerOffsetManager. destruct (bomH w !! b) as [m|]; [|done].
  simpl. destruct (decide _); [|done]. by destruct (decide _).
Qed.

Lemma unref_boms b w m :
  bomH w !! b = Some m ->
  boms (unrefBrokerOffsetManager b w) =
    if decide (wrap_int (refs m - 1) = 0)
    then if decide (boms w !! bom_broker m = Some b)
         then delete (bom_broker m) (boms w) else boms w
    else boms w.
Proof.
  intros Hm. unfold unrefBrokerOffsetManager. rewrite Hm. simpl.
  destruct (decide _); [|done]. by destruct (decide _).
Qed.

Lemma unref_boms_subseteq b w : boms (unrefBrokerOffsetManager b w) ⊆ boms w.
Proof.
  destruct (bomH w !! b) as [m|] eqn:Hm.
  - rewrite (unref_boms b w m Hm). destruct (decide _); [|done].
    destruct (decide _); [|done]. apply delete_subseteq.
  - unfold unrefBrokerOffsetManager. by rewrite Hm.
Qed.

Lemma refs_unref_result m :
  1 <= refs m < 2 ^ 63 -> refs (unref_result m) = refs m - 1.
Proof.
  intros Hr. unfold unref_result. simpl.
  rewrite wrap_int_small by lia. by destruct (decide _).
Qed.

Lemma pom_ptrs_set_broker p x w :
  pom_ptrs (upd_pom p (set_broker x) w) = <[p := x]> (pom_ptrs w).
Proof. unfold pom_ptrs, upd_pom; simpl. by apply fmap_alter_insert. Qed.

Lemma pom_keys_upd_pom p f w :
  (forall s, topic (f s) = topic s /\ partition (f s) = partition s) ->
  pom_keys (upd_pom p f w) = pom_keys w.
Proof.
  intros Hf. unfold pom_keys, upd_pom; simpl. apply fmap_alter_same.
  intros s. destruct (Hf s) as [-> ->]. done.
Qed.

(** The first part of selectBroker: the reference is given back and the
    pointer set to nil. *)
Lemma release_inv p b w :
  refcount_inv w -> bounded w ->
  pom_ptrs w !! p = Some (Some b) ->
  refcount_inv (upd_pom p (set_broker None) (unrefBrokerOffsetManager b w)).
Proof.
  intros [Hreg Hptr Hrefs] Hbound Hp.
  pose proof (Hptr p b Hp) as Hb.
  destruct (lookup_lt_is_Some_2 (bomH w) b Hb) as [m Hm].
  assert (Hlen : length (bomH (unrefBrokerOffsetManager b w)) = length (bomH w)).
  { rewrite (unref_bomH b w m Hm). apply length_insert. }
  assert (Hptrs : pom_ptrs (upd_pom p (set_broker None)
                              (unrefBrokerOffsetManager b w))
                  = <[p := None]> (pom_ptrs w)).
  { rewrite pom_ptrs_set_broker. unfold pom_ptrs. by rewrite unref_pomH. }
  split.
  - intros brk b' Hb'. simpl. rewrite Hlen. apply (Hreg brk).
    simpl in Hb'. eapply lookup_weaken; [exact Hb'|apply unref_boms_subseteq].
  - intros p' b' Hp'. simpl. rewrite Hlen. rewrite Hptrs in Hp'.
    destruct (decide (p = p')) as [->|Hne].
    + rewrite list_lookup_insert_eq in Hp'; [done|].
      by eapply lookup_lt_Some.
    + rewrite list_lookup_insert_ne in Hp' by done. by eapply Hptr.
  - intros b' m' Hm'. unfold pointing. rewrite Hptrs.
    simpl in Hm'. rewrite (unref_bomH b w m Hm) in Hm'.
    pose proof (count_ptr_insert b' p (Some b) None (pom_ptrs w) Hp) as Hcnt.
    unfold indicator in Hcnt. destruct (decide (None = Some b')); [done|].
    destruct (decide (b = b')) as [<-|Hne].
    + rewrite list_lookup_insert_eq in Hm' by done. inversion Hm'; subst m'.
      destruct (decide (Some b = Some b)); [|done].
      pose proof (Hrefs b m Hm) as Hr. unfold pointing in Hr.
      pose proof (count_ptr_le b (pom_ptrs w)) as Hle.
      unfold pom_ptrs in Hle at 2. rewrite length_fmap in Hle.
      unfold bounded in Hbound.
      rewrite refs_unref_result by lia. lia.
    + rewrite list_lookup_insert_ne in Hm' by done.
      destruct (decide (Some b = Some b')); [congruence|].
      pose proof (Hrefs b' m' Hm') as Hr. unfold pointing in Hr. lia.
Qed.

Lemma alter_app_last {A} (f : A -> A) (l : list A) (x : A) :
  alter f (length l) (l ++ [x]) = l ++ [f x].
Proof. induction l as [|y l IH]; simpl; [done|]. f_equal. exact IH. Qed.

(** The second part of selectBroker: a reference is taken, the pointer
    set, and the manager sent on the attach channel. *)
Lemma acquire_inv p brk w b w2 :
  refcount_inv w -> bounded w ->
  pom_ptrs w !! p = Some None ->
  refBrokerOffsetManager brk w = (b, w2) ->
  refcount_inv (upd_bom b (attach p) (upd_pom p (set_broker (Some b)) w2)).
Proof.
  intros [Hreg Hptr Hrefs] Hbound Hp Href.
  assert (Hcount : forall b',
    (count_ptr b' (<[p := Some b]> (pom_ptrs w))
     = count_ptr b' (pom_ptrs w) + indicator (Some b = Some b'))%nat).
  { intros b'.
    pose proof (count_ptr_insert b' p None (Some b) (pom_ptrs w) Hp) as H.
    unfold indicator in *. destruct (decide (None = Some b')); [done|]. lia. }
  assert (Hroom : (count_ptr b (pom_ptrs w) + 1 <= length (pomH w))%nat).
  { pose proof (count_ptr_le b (<[p := Some b]> (pom_ptrs w))) as Hle.
    rewrite Hcount, length_insert in Hle. unfold pom_ptrs in Hle at 2.
    rewrite length_fmap in Hle. unfold indicator in Hle.
    by destruct (decide (Some b = Some b)). }
  unfold bounded in Hbound.
  unfold refBrokerOffsetManager in Href.
  destruct (boms w !! brk) as [b0|] eqn:Hbrk; inversion Href; subst; clear Href.
  - (* the broker has a manager *)
    pose proof (Hreg brk b Hbrk) as Hb.
    destruct (lookup_lt_is_Some_2 (bomH w) b Hb) as [m Hm].
    assert (HbomH : bomH (upd_bom b (attach p)
                            (upd_pom p (set_broker (Some b))
                               (upd_bom b incr_refs w)))
                    = <[b := attach p (incr_refs m)]> (bomH w)).
    { unfold upd_bom, upd_pom; simpl. rewrite list_alter_alter_eq.
      by rewrite (alter_as_insert _ _ _ m Hm). }
    split.
    + intros brk' b' Hb'. rewrite HbomH, length_insert. by apply (Hreg brk').
    + intros p' b' Hp'. rewrite HbomH, length_insert.
      change (pom_ptrs (upd_pom p (set_broker (Some b)) w) !! p'
              = Some (Some b')) in Hp'.
      rewrite pom_ptrs_set_broker in Hp'.
      destruct (decide (p = p')) as [->|Hne].
      * rewrite list_lookup_insert_eq in Hp' by (by eapply lookup_lt_Some).
        by inversion Hp'; subst.
      * rewrite list_lookup_insert_ne in Hp' by done. by eapply Hptr.
    + intros b' m' Hm'. rewrite HbomH in Hm'. unfold pointing.
      change (refs m' = Z.of_nat
                (count_ptr b' (pom_ptrs (upd_pom p (set_broker (Some b)) w)))).
      rewrite pom_ptrs_set_broker, Hcount. unfold indicator.
      destruct (decide (b = b')) as [<-|Hne].
      * rewrite list_lookup_insert_eq in Hm' by done. inversion Hm'; subst m'.
        destruct (decide (Some b = Some b)); [|done]. simpl.
        pose proof (Hrefs b m Hm) as Hr. unfold pointing in Hr.
        rewrite wrap_int_small by lia. lia.
      * rewrite list_lookup_insert_ne in Hm' by done.
        destruct (decide (Some b = Some b')); [congruence|].
        pose proof (Hrefs b' m' Hm') as Hr. unfold pointing in Hr. lia.
  - (* a new manager is made *)
    set (b := length (bomH w)).
    set (new := attach p (incr_refs (newBrokerOffsetManager brk))).
    assert (HbomH : bomH (upd_bom b (attach p)
                            (upd_pom p (set_broker (Some b))
                               (upd_bom b incr_refs
                                  (with_boms (<[brk := b]> (boms w))
                                     (with_bomH (bomH w ++ [newBrokerOffsetManager brk]) w)))))
                    = bomH w ++ [new]).
    { unfold upd_bom, upd_pom; simpl. rewrite list_alter_alter_eq.
      apply alter_app_last. }
    assert (Hfresh : count_ptr b (pom_ptrs w) = 0%nat).
    { apply count_ptr_zero. intros p' Hp'. apply Hptr in Hp'. unfold b in Hp'.
      lia. }
    split.
    + intros brk' b' Hb'. rewrite HbomH, length_app. simpl.
      simpl in Hb'. destruct (decide (brk = brk')) as [<-|Hne].
      * rewrite lookup_insert_eq in Hb'. inversion Hb'; subst b'.
        unfold b. lia.
      * rewrite lookup_insert_ne in Hb' by done.
        pose proof (Hreg brk' b' Hb'). lia.
    + intros p' b' Hp'. rewrite HbomH, length_app. simpl.
      change (pom_ptrs (upd_pom p (set_broker (Some b)) w) !! p'
              = Some (Some b')) in Hp'.
      rewrite pom_ptrs_set_broker in Hp'.
      destruct (decide (p = p')) as [->|Hne].
      * rewrite list_lookup_insert_eq in Hp' by (by eapply lookup_lt_Some).
        inversion Hp'; subst b'. unfold b. lia.
      * rewrite list_lookup_insert_ne in Hp' by done.
        pose proof (Hptr p' b' Hp'). lia.
    + intros b' m' Hm'. rewrite HbomH in Hm'. unfold pointing.
      change (refs m' = Z.of_nat
                (count_ptr b' (pom_ptrs (upd_pom p (set_broker (Some b)) w)))).
      rewrite pom_ptrs_set_broker, Hcount. unfold indicator.
      destruct (decide (b = b')) as [<-|Hne].
      * rewrite lookup_app_r in Hm' by (unfold b; lia).
        replace (b - length (bomH w))%nat with 0%nat in Hm' by (unfold b; lia).
        inversion Hm'; subst m'.
        destruct (decide _) as [_|Hn]; [|by destruct Hn].
        rewrite Hfresh. reflexivity.
      * destruct (decide _) as [Heq|_]; [unfold b in Hne; congruence|].
        assert (Hlt : (b' < length (bomH w))%nat).
        { apply lookup_lt_Some in Hm'. rewrite length_app in Hm'. simpl in Hm'.
          unfold b in Hne. lia. }
        rewrite lookup_app_l in Hm' by done.
        pose proof (Hrefs b' m' Hm') as Hr. unfold pointing in Hr. lia.
Qed.

Lemma pom_ptrs_lookup p w :
  pom_ptrs w !! p = broker <$> pomH w !! p.
Proof. unfold pom_ptrs. apply list_lookup_fmap. Qed.

Lemma ref_pomH brk w : pomH (refBrokerOffsetManager brk w).2 = pomH w.
Proof. unfold refBrokerOffsetManager. by destruct (boms w !! brk). Qed.

Lemma ref_poms brk w : poms (refBrokerOffsetManager brk w).2 = poms w.
Proof. unfold refBrokerOffsetManager. by destruct (boms w !! brk). Qed.

Lemma released_facts p w :
  refcount_inv w -> bounded w -> (p < length (pomH w))%nat ->
  refcount_inv (released p w)
  /\ pom_ptrs (released p w) !! p = Some None
  /\ pom_keys (released p w) = pom_keys w
  /\ poms (released p w) = poms w
  /\ group (released p w) = group w
  /\ (forall q, q ≠ p -> pomH (released p w) !! q = pomH w !! q).
Proof.
  intros Hinv Hbound Hp. unfold released.
  destruct (lookup_lt_is_Some_2 (pomH w) p Hp) as [pm Hpm].
  rewrite Hpm. simpl. destruct (broker pm) as [b|] eqn:Hb.
  - split; [|split; [|split; [|split; [|split]]]].
    + apply release_inv; [done|done|].
      rewrite pom_ptrs_lookup, Hpm. simpl. by rewrite Hb.
    + rewrite pom_ptrs_set_broker. apply list_lookup_insert_eq.
      unfold pom_ptrs. rewrite length_fmap, unref_pomH. done.
    + rewrite pom_keys_upd_pom by done. unfold pom_keys. by rewrite unref_pomH.
    + simpl. apply unref_poms.
    + unfold unrefBrokerOffsetManager. simpl.
      destruct (bomH w !! b); [|done]. simpl.
      destruct (decide _); [|done]. by destruct (decide _).
    + intros q Hq. rewrite lookup_upd_pom_ne by done. by rewrite unref_pomH.
  - split; [done|]. split; [|done].
    rewrite pom_ptrs_lookup, Hpm. simpl. by rewrite Hb.
Qed.

Lemma selectBroker_unfold e p w :
  selectBroker e p w =
    let w1 := released p w in
    match RefreshCoordinator e (group w1) with
    | Some err => (w1, Some err)
    | None =>
        match Coordinator e (group w1) with
        | inl err => (w1, Some err)
        | inr brk =>
            let '(b, w2) := refBrokerOffsetManager brk w1 in
            (upd_bom b (attach p) (upd_pom p (set_broker (Some b)) w2), None)
        end
    end.
Proof. reflexivity. Qed.

Lemma selectBroker_facts e p w :
  refcount_inv w -> bounded w -> (p < length (pomH w))%nat ->
  refcount_inv (selectBroker e p w).1
  /\ pom_keys (selectBroker e p w).1 = pom_keys w
  /\ poms (selectBroker e p w).1 = poms w
  /\ (forall q, q ≠ p ->
        pomH (selectBroker e p w).1 !! q = pomH w !! q)
  /\ ((selectBroker e p w).2 = None ->
      exists b, pom_ptrs (selectBroker e p w).1 !! p = Some (Some b)).
Proof.
  intros Hinv Hbound Hp. rewrite selectBroker_unfold.
  destruct (released_facts p w Hinv Hbound Hp)
    as (Hinv1 & Hnil & Hkeys & Hpoms & _ & Hother).
  set (w1 := released p w) in *. simpl.
  assert (Hbound1 : bounded w1).
  { unfold bounded in *. replace (length (pomH w1)) with (length (pomH w));
      [done|]. apply (f_equal length) in Hkeys. unfold pom_keys in Hkeys.
    by rewrite !length_fmap in Hkeys. }
  destruct (RefreshCoordinator e (group w1)).
  { simpl. do 4 (split; [done|]). intros H; discriminate H. }
  destruct (Coordinator e (group w1)) as [err|brk].
  { simpl. do 4 (split; [done|]). intros H; discriminate H. }
  destruct (refBrokerOffsetManager brk w1) as [b w2] eqn:Href. simpl.
  pose proof (ref_pomH brk w1) as HpomH. pose proof (ref_poms brk w1) as Hpoms2.
  rewrite Href in HpomH, Hpoms2. simpl in HpomH, Hpoms2.
  split; [by eapply acquire_inv|].
  split.
  { change (pom_keys (upd_pom p (set_broker (Some b)) w2) = pom_keys w).
    rewrite pom_keys_upd_pom by done. unfold pom_keys in *. by rewrite HpomH. }
  split; [by rewrite <- Hpoms, <- Hpoms2|].
  split.
  { intros q Hq.
    change (pomH (upd_pom p (set_broker (Some b)) w2) !! q = pomH w !! q).
    rewrite lookup_upd_pom_ne by done. rewrite HpomH. by apply Hother. }
  intros _. exists b.
  change (pom_ptrs (upd_pom p (set_broker (Some b)) w2) !! p = Some (Some b)).
  rewrite pom_ptrs_set_broker. apply list_lookup_insert_eq.
  unfold pom_ptrs. rewrite length_fmap, HpomH.
  apply lookup_lt_Some in Hnil. unfold pom_ptrs in Hnil.
  by rewrite length_fmap in Hnil.
Qed.

(** ** Frames *)

Lemma frame_refl w : frame w w.
Proof. by split. Qed.

Lemma frame_trans w1 w2 w3 : frame w1 w2 -> frame w2 w3 -> frame w1 w3.
Proof.
  intros [H1 H2 H3 H4 H5] [G1 G2 G3 G4 G5].
  split; try congruence. by etrans.
Qed.

Lemma frame_upd_pom p f w :
  (forall s, topic (f s) = topic s /\ partition (f s) = partition s
             /\ broker (f s) = broker s) ->
  frame w (upd_pom p f w).
Proof.
  intros Hf. split; try done.
  - apply pom_keys_upd_pom. intros s. destruct (Hf s) as (? & ? & ?). done.
  - unfold pom_ptrs, upd_pom; simpl. apply fmap_alter_same.
    intros s. by destruct (Hf s) as (? & ? & ?).
Qed.

Lemma frame_upd_bom b f w :
  (forall m, refs (f m) = refs m) -> frame w (upd_bom b f w).
Proof.
  intros Hf. split; try done.
  unfold bom_refs, upd_bom; simpl. by apply fmap_alter_same.
Qed.

Lemma frame_handleError p err w : frame w (handleError p err w).
Proof.
  unfold handleError. destruct (ReturnErrors w).
  - by apply frame_upd_pom.
  - by split.
Qed.

Lemma frame_signal_rebalance p w : frame w (signal_rebalance p w).
Proof. by apply frame_upd_pom. Qed.

Lemma frame_abandonBroker b w : frame w (abandonBroker b w).
Proof.
  unfold abandonBroker. destruct (bomH w !! b); [|apply frame_refl].
  split; try done. simpl. apply delete_subseteq.
Qed.

Lemma frame_bounded w w' : frame w w' -> bounded w -> bounded w'.
Proof.
  intros [Hk _ _ _ _] Hb. unfold bounded in *.
  apply (f_equal length) in Hk. unfold pom_keys in Hk.
  rewrite !length_fmap in Hk. by rewrite Hk.
Qed.

Lemma frame_refcount_inv w w' : frame w w' -> refcount_inv w -> refcount_inv w'.
Proof.
  intros [_ _ Hp Hr Hb] [Hreg Hptr Hrefs].
  assert (Hlen : length (bomH w') = length (bomH w)).
  { apply (f_equal length) in Hr. unfold bom_refs in Hr.
    by rewrite !length_fmap in Hr. }
  split.
  - intros brk b Hbrk. rewrite Hlen. apply (Hreg brk).
    by eapply lookup_weaken.
  - intros p b Hpb. rewrite Hlen. rewrite Hp in Hpb. by eapply Hptr.
  - intros b m Hm. unfold pointing. rewrite Hp.
    assert (bom_refs w !! b = Some (refs m)) as Hbr.
    { rewrite <- Hr. unfold bom_refs. rewrite list_lookup_fmap. by rewrite Hm. }
    unfold bom_refs in Hbr. rewrite list_lookup_fmap in Hbr.
    destruct (bomH w !! b) as [m0|] eqn:Hm0; [|done]. simpl in Hbr.
    pose proof (Hrefs b m0 Hm0) as Hr0. unfold pointing in Hr0.
    congruence.
Qed.

Lemma frame_registry_ok w w' : frame w w' -> registry_ok w -> registry_ok w'.
Proof.
  intros [Hk Hp _ _ _] Hok t perTopic part p Ht Hpart.
  rewrite Hk. rewrite Hp in Ht. by eapply Hok.
Qed.

Lemma frame_notify_abort err s w : frame w (notify_abort err s w).
Proof.
  unfold notify_abort. eapply frame_trans;
    [apply frame_handleError|apply frame_signal_rebalance].
Qed.

Lemma frame_foldl_notify err l : forall w,
  frame w (foldl (fun w s => notify_abort err s w) w l).
Proof.
  induction l as [|s l IH]; intros w; simpl; [apply frame_refl|].
  eapply frame_trans; [apply frame_notify_abort|apply IH].
Qed.

Lemma frame_abort_drain err b w : frame w (outcome_world (abort_drain err b w)).
Proof.
  unfold abort_drain. destruct (bomH w !! b) as [m|]; [|apply frame_refl].
  assert (frame w (foldl (fun w s => notify_abort err s w)
                     (upd_bom b (set_newSubscriptions
                        (mkChan (cap (newSubscriptions m)) [] []
                           (closed (newSubscriptions m)))) w)
                     (chan_pending (newSubscriptions m)))) as H.
  { eapply frame_trans; [|apply frame_foldl_notify]. by apply frame_upd_bom. }
  by destruct (closed (newSubscriptions m)).
Qed.

Lemma frame_abort err order b w : frame w (outcome_world (abort err order b w)).
Proof.
  unfold abort. destruct (bomH w !! b) as [m|]; [|apply frame_refl].
  eapply frame_trans; [|apply frame_abort_drain].
  eapply frame_trans; [|apply frame_foldl_notify].
  eapply frame_trans; [apply frame_abandonBroker|]. by split.
Qed.

Lemma frame_drop b s w :
  frame w (signal_rebalance s (upd_bom b (drop_subscription s) w)).
Proof.
  eapply frame_trans; [|apply frame_signal_rebalance]. by apply frame_upd_bom.
Qed.

Lemma frame_flush_one response b s w w' :
  flush_one response b s w = Some w' -> frame w w'.
Proof.
  unfold flush_one, incomplete. destruct response as [resp|]; [|done]. simpl.
  assert (Hinc : forall err,
            frame w (signal_rebalance s
                       (upd_bom b (drop_subscription s) (handleError s err w)))).
  { intros err. eapply frame_trans; [apply frame_handleError|apply frame_drop]. }
  destruct (pomH w !! s) as [pm|];
    [|intros H; inversion H; apply frame_refl].
  destruct (commit_Errors resp !! topic pm) as [perTopic|];
    [|intros H; inversion H; apply Hinc].
  destruct (perTopic !! partition pm) as [k|];
    [|intros H; inversion H; apply Hinc].
  destruct k; intros H; inversion H;
    first [apply frame_refl | apply frame_drop | apply Hinc].
Qed.

Lemma frame_flush_loop response b order : forall w,
  frame w (outcome_world (flush_loop response b order w)).
Proof.
  induction order as [|s order IH]; intros w; simpl; [apply frame_refl|].
  destruct (flush_one response b s w) as [w'|] eqn:Hone; [|apply frame_refl].
  eapply frame_trans; [by eapply frame_flush_one|apply IH].
Qed.

Lemma frame_after_abort response o b w r :
  frame w (outcome_world r) ->
  frame w (outcome_world (after_abort response o b r)).
Proof.
  intros H. destruct r; simpl in *; try done.
  eapply frame_trans; [exact H|apply frame_flush_loop].
Qed.

Lemma frame_flushToBroker e o b w :
  frame w (outcome_world (flushToBroker e o b w)).
Proof.
  unfold flushToBroker, flush_with.
  destruct (bomH w !! b) as [m|]; [|apply frame_refl].
  destruct (CommitOffset e (bom_broker m) _) as [response [er|]].
  - apply frame_after_abort, frame_abort.
  - apply frame_flush_loop.
Qed.

Lemma frame_abort_resume err response o b w :
  frame w (outcome_world (abort_resume err response o b w)).
Proof. apply frame_after_abort, frame_abort_drain. Qed.

Lemma frame_bom_receive b w o :
  bom_receive b w = Some o -> frame w (outcome_world o).
Proof.
  unfold bom_receive. destruct (bomH w !! b) as [m|]; [|done]. simpl.
  destruct (chan_recv (newSubscriptions m)) as [[s c]|].
  - intros H; inversion H. by apply frame_upd_bom.
  - destruct (closed (newSubscriptions m)); [|done].
    intros H; inversion H. by apply frame_upd_bom.
Qed.

Lemma frame_fetchInitialOffset e p w w' r :
  fetchInitialOffset e p w = Some (w', r) -> frame w w'.
Proof.
  unfold fetchInitialOffset.
  destruct (pomH w !! p) as [s|]; [|done]. simpl.
  destruct (broker s) as [b|]; [|done]. simpl.
  destruct (bomH w !! b) as [m|]; [|done]. simpl.
  destruct (FetchOffset e _ _) as [err|response];
    [intros H; inversion H; apply frame_refl|].
  destruct (GetBlock response _ _) as [block|];
    [|intros H; inversion H; apply frame_refl].
  destruct (fb_Err block); intros H; inversion H;
    first [apply frame_refl | by apply frame_upd_pom].
Qed.

Lemma fetchInitialOffset_total e p w b :
  refcount_inv w -> pom_ptrs w !! p = Some (Some b) ->
  exists w' r, fetchInitialOffset e p w = Some (w', r).
Proof.
  intros Hinv Hp. pose proof (inv_pointers w Hinv p b Hp) as Hb.
  destruct (lookup_lt_is_Some_2 (bomH w) b Hb) as [m Hm].
  rewrite pom_ptrs_lookup in Hp. unfold fetchInitialOffset.
  destruct (pomH w !! p) as [s|]; [|done]. simpl in *.
  inversion Hp as [Hbs]. rewrite Hbs. simpl. rewrite Hm. simpl.
  destruct (FetchOffset e _ _) as [err|response]; [by eauto|].
  destruct (GetBlock response _ _) as [block|]; [|by eauto].
  destruct (fb_Err block); by eauto.
Qed.

Lemma fetchInitialOffset_other e p q w w' r :
  fetchInitialOffset e p w = Some (w', r) -> q ≠ p ->
  pomH w' !! q = pomH w !! q.
Proof.
  unfold fetchInitialOffset.
  destruct (pomH w !! p) as [s|]; [|done]. simpl.
  destruct (broker s) as [b|]; [|done]. simpl.
  destruct (bomH w !! b) as [m|]; [|done]. simpl.
  destruct (FetchOffset e _ _) as [err|response];
    [intros H; by inversion H|].
  destruct (GetBlock response _ _) as [block|];
    [|intros H; by inversion H].
  destruct (fb_Err block); intros H Hq; inversion H; try done.
  by rewrite lookup_upd_pom_ne.
Qed.

(** ** Steps and the invariants *)

Lemma registry_ok_same w w' :
  pom_keys w' = pom_keys w -> poms w' = poms w ->
  registry_ok w -> registry_ok w'.
Proof.
  intros Hk Hp Hok t perTopic part p Ht Hpart.
  rewrite Hk. rewrite Hp in Ht. by eapply Hok.
Qed.

Lemma pom_keys_length w : length (pom_keys w) = length (pomH w).
Proof. unfold pom_keys. apply length_fmap. Qed.

Lemma selectBroker_length e p w :
  length (pomH (selectBroker e p w).1) = length (pomH w).
Proof.
  rewrite selectBroker_unfold.
  assert (Hrel : length (pomH (released p w)) = length (pomH w)).
  { unfold released. destruct (pomH w !! p ≫= broker); [|done].
    unfold upd_pom; simpl. by rewrite length_alter, unref_pomH. }
  simpl. destruct (RefreshCoordinator e _); [done|].
  destruct (Coordinator e _) as [err|brk]; [done|].
  pose proof (ref_pomH brk (released p w)) as H.
  destruct (refBrokerOffsetManager brk (released p w)) as [b w2]. simpl in *.
  by rewrite length_alter, H.
Qed.

Lemma fetchInitialOffset_length e p w w' r :
  fetchInitialOffset e p w = Some (w', r) ->
  length (pomH w') = length (pomH w).
Proof.
  intros H. apply frame_fetchInitialOffset in H. destruct H as [Hk _ _ _ _].
  by rewrite <- !pom_keys_length, Hk.
Qed.

Lemma allocated_inv t part w : refcount_inv w -> refcount_inv (allocated t part w).
Proof.
  intros [Hreg Hptr Hrefs].
  assert (Hptrs : pom_ptrs (allocated t part w) = pom_ptrs w ++ [None]).
  { unfold pom_ptrs, allocated; simpl. by rewrite fmap_app. }
  split.
  - done.
  - intros p b Hp. rewrite Hptrs in Hp. simpl.
    destruct (decide (p < length (pom_ptrs w))%nat) as [Hlt|Hge].
    + rewrite lookup_app_l in Hp by done. by eapply Hptr.
    + rewrite lookup_app_r in Hp by lia.
      destruct (p - length (pom_ptrs w))%nat; simpl in Hp; done.
  - intros b m Hm. unfold pointing. rewrite Hptrs, count_ptr_app.
    rewrite (Hrefs b m Hm). unfold pointing.
    replace (count_ptr b [None]) with 0%nat; [f_equal; lia|].
    unfold count_ptr. rewrite filter_cons. by destruct (decide _).
Qed.

Lemma newPartitionOffsetManager_unfold e t part w :
  newPartitionOffsetManager e t part w =
    let p := length (pomH w) in
    let '(w1, r) := selectBroker e p (allocated t part w) in
    match r with
    | Some err => Some (w1, inl err)
    | None =>
        '(w2, r2) ← fetchInitialOffset e p w1;
        match r2 with
        | Some err => Some (w2, inl err)
        | None => Some (upd_pom p (set_running true) w2, inr p)
        end
    end.
Proof. reflexivity. Qed.

Lemma newPartitionOffsetManager_length e t part w w' r :
  newPartitionOffsetManager e t part w = Some (w', r) ->
  length (pomH w') = S (length (pomH w)).
Proof.
  rewrite newPartitionOffsetManager_unfold. simpl.
  pose proof (selectBroker_length e (length (pomH w)) (allocated t part w)) as Hl.
  destruct (selectBroker e (length (pomH w)) (allocated t part w)) as [w1 r1].
  simpl in Hl. rewrite length_app in Hl. simpl in Hl.
  destruct r1 as [err|]; [intros H; inversion H; subst; lia|].
  destruct (fetchInitialOffset e (length (pomH w)) w1) as [[w2 r2]|] eqn:Hf;
    [|done]. simpl.
  apply fetchInitialOffset_length in Hf.
  destruct r2; intros H; inversion H; subst; simpl; rewrite ?length_alter; lia.
Qed.

Lemma newPartitionOffsetManager_facts e t part w :
  refcount_inv w -> Z.of_nat (length (pomH w)) + 1 < 2 ^ 63 ->
  exists w' r,
    newPartitionOffsetManager e t part w = Some (w', r)
    /\ refcount_inv w'
    /\ poms w' = poms w
    /\ pom_keys w' = pom_keys w ++ [(t, part)]
    /\ (forall q, (q < length (pomH w))%nat -> pomH w' !! q = pomH w !! q)
    /\ (forall p, r = inr p -> p = length (pomH w)).
Proof.
  intros Hinv Hbound. rewrite newPartitionOffsetManager_unfold. simpl.
  set (p := length (pomH w)). set (w0 := allocated t part w).
  assert (Hinv0 : refcount_inv w0) by by apply allocated_inv.
  assert (Hb0 : bounded w0).
  { unfold bounded, w0, allocated; simpl. rewrite length_app; simpl. lia. }
  assert (Hp0 : (p < length (pomH w0))%nat).
  { unfold w0, allocated, p; simpl. rewrite length_app; simpl. lia. }
  assert (Hk0 : pom_keys w0 = pom_keys w ++ [(t, part)]).
  { unfold pom_keys, w0, allocated; simpl. by rewrite fmap_app. }
  assert (Hold0 : forall q, (q < length (pomH w))%nat ->
                            pomH w0 !! q = pomH w !! q).
  { intros q Hq. unfold w0, allocated; simpl. by rewrite lookup_app_l. }
  destruct (selectBroker_facts e p w0 Hinv0 Hb0 Hp0)
    as (Hinv1 & Hk1 & Hpoms1 & Hother1 & Hok1).
  destruct (selectBroker e p w0) as [w1 r1]. simpl in *.
  assert (Hold1 : forall q, (q < length (pomH w))%nat ->
                            pomH w1 !! q = pomH w !! q).
  { intros q Hq. rewrite Hother1 by (unfold p; lia). by apply Hold0. }
  destruct r1 as [err|].
  { eexists _, _. split; [done|]. do 4 (split; [congruence || done|]).
    intros ? H; discriminate H. }
  destruct (Hok1 eq_refl) as [b Hb].
  destruct (fetchInitialOffset_total e p w1 b Hinv1 Hb) as (w2 & r2 & Hf).
  rewrite Hf. simpl.
  pose proof (frame_fetchInitialOffset _ _ _ _ _ Hf) as Hfr.
  pose proof (frame_refcount_inv _ _ Hfr Hinv1) as Hinv2.
  assert (Hold2 : forall q, (q < length (pomH w))%nat ->
                            pomH w2 !! q = pomH w !! q).
  { intros q Hq. rewrite (fetchInitialOffset_other _ _ _ _ _ _ Hf)
      by (unfold p; lia). by apply Hold1. }
  destruct Hfr as [Hk2 Hp2 _ _ _].
  destruct r2 as [err|].
  { eexists _, _. split; [done|]. do 4 (split; [congruence || done|]).
    intros ? H; discriminate H. }
  eexists _, _. split; [done|].
  pose proof (frame_upd_pom p (set_running true) w2) as Hfr3.
  split; [eapply frame_refcount_inv; [apply Hfr3; done|done]|].
  split; [simpl; congruence|].
  split; [rewrite pom_keys_upd_pom by done; congruence|].
  split.
  - intros q Hq. rewrite lookup_upd_pom_ne by (unfold p; lia). by apply Hold2.
  - intros p' H. by inversion H.
Qed.

Lemma refcount_inv_with_poms m w : refcount_inv w -> refcount_inv (with_poms m w).
Proof. intros [H1 H2 H3]. by split. Qed.

Lemma ManagePartition_facts e t part w :
  refcount_inv w -> registry_ok w ->
  Z.of_nat (length (pomH w)) + 1 < 2 ^ 63 ->
  exists w' r,
    ManagePartition e t part w = Some (w', r)
    /\ refcount_inv w' /\ registry_ok w'
    /\ (forall q, (q < length (pomH w))%nat -> pomH w' !! q = pomH w !! q)
    /\ (forall orig, entry w t part orig ->
          poms w' = poms w
          /\ exists err, r = inl err
               /\ ((exists w1 p, newPartitionOffsetManager e t part w
                                   = Some (w1, inr p)) ->
                   err = already_managed))
    /\ (forall p, r = inr p -> p = length (pomH w) /\ entry w' t part p).
Proof.
  intros Hinv Hok Hbound.
  destruct (newPartitionOffsetManager_facts e t part w Hinv Hbound)
    as (w1 & r1 & Hnew & Hinv1 & Hpoms1 & Hk1 & Hold1 & Hptr1).
  unfold ManagePartition. rewrite Hnew. simpl.
  assert (Hok1 : registry_ok w1).
  { intros t' perTopic part' p' Ht' Hp'. rewrite Hk1. rewrite Hpoms1 in Ht'.
    apply lookup_app_l_Some. by eapply Hok. }
  destruct r1 as [err|p].
  { eexists _, _. split; [done|]. do 3 (split; [done|]). split.
    - intros orig _. split; [done|]. exists err. split; [done|].
      intros (w1' & p & H). congruence.
    - intros p H. discriminate H. }
  specialize (Hptr1 p eq_refl). subst p.
  destruct (poms w1 !! t) as [perTopic|] eqn:Ht; simpl.
  - destruct (perTopic !! part) as [orig|] eqn:Hpart.
    + (* the pair is occupied *)
      eexists _, _. split; [done|]. do 3 (split; [done|]). split.
      * intros orig' _. split; [done|]. by eexists.
      * intros p H. discriminate H.
    + eexists _, _. split; [done|].
      split; [by apply refcount_inv_with_poms|]. split; [|split; [done|split]].
      * intros t' perTopic' part' p' Ht' Hp'. simpl in Ht'.
        change (pom_keys w1 !! p' = Some (t', part')).
        destruct (decide (t = t')) as [<-|Hne].
        -- rewrite lookup_insert_eq in Ht'. inversion Ht'; subst perTopic'.
           destruct (decide (part = part')) as [<-|Hnp].
           ++ rewrite lookup_insert_eq in Hp'. inversion Hp'; subst p'.
              rewrite Hk1, <- pom_keys_length. by apply list_lookup_middle.
           ++ rewrite lookup_insert_ne in Hp' by done. by eapply Hok1.
        -- rewrite lookup_insert_ne in Ht' by done. by eapply Hok1.
      * intros orig (perTopic' & Ht' & Hp'). rewrite <- Hpoms1, Ht in Ht'.
        inversion Ht'; subst. congruence.
      * intros p H. inversion H; subst p. split; [done|].
        eexists. split; [apply lookup_insert_eq|apply lookup_insert_eq].
  - (* no manager of this topic yet *)
    rewrite lookup_empty.
    eexists _, _. split; [done|].
    split; [by do 2 apply refcount_inv_with_poms|]. split; [|split; [done|split]].
    + intros t' perTopic' part' p' Ht' Hp'. simpl in Ht'.
      change (pom_keys w1 !! p' = Some (t', part')).
      destruct (decide (t = t')) as [<-|Hne].
      * rewrite lookup_insert_eq in Ht'. inversion Ht'; subst perTopic'.
        destruct (decide (part = part')) as [<-|Hnp].
        -- rewrite lookup_insert_eq in Hp'. inversion Hp'; subst p'.
           rewrite Hk1, <- pom_keys_length. by apply list_lookup_middle.
        -- rewrite lookup_insert_ne, lookup_empty in Hp' by done. done.
      * rewrite !lookup_insert_ne in Ht' by done. by eapply Hok1.
    + intros orig (perTopic' & Ht' & Hp'). rewrite <- Hpoms1, Ht in Ht'. done.
    + intros p H. inversion H; subst p. split; [done|].
      eexists. split; [apply lookup_insert_eq|apply lookup_insert_eq].
Qed.

Lemma ManagePartition_length e t part w w' r :
  ManagePartition e t part w = Some (w', r) ->
  length (pomH w') = S (length (pomH w)).
Proof.
  unfold ManagePartition.
  destruct (newPartitionOffsetManager e t part w) as [[w1 r1]|] eqn:Hnew;
    [|done]. simpl.
  apply newPartitionOffsetManager_length in Hnew.
  destruct r1 as [err|p]; [intros H; by inversion H; subst|].
  destruct (poms w1 !! t) as [perTopic|]; simpl.
  - destruct (perTopic !! part); intros H; by inversion H; subst.
  - rewrite lookup_empty. intros H; by inversion H; subst.
Qed.

Lemma pom_mainLoop_iter_facts e p w w' :
  refcount_inv w -> registry_ok w -> bounded w ->
  pom_mainLoop_iter e p w = Some w' ->
  refcount_inv w' /\ registry_ok w'
  /\ length (pomH w') = length (pomH w).
Proof.
  intros Hinv Hok Hbound. unfold pom_mainLoop_iter.
  destruct (pomH w !! p) as [s|] eqn:Hs; [|done]. simpl.
  destruct (chan_recv (rebalance s)) as [[u c]|]; [|done]. simpl.
  set (w1 := upd_pom p (set_rebalance c) w).
  assert (Hfr1 : frame w w1) by by apply frame_upd_pom.
  assert (Hp1 : (p < length (pomH w1))%nat).
  { unfold w1, upd_pom; simpl. rewrite length_alter. by eapply lookup_lt_Some. }
  destruct (selectBroker_facts e p w1 (frame_refcount_inv _ _ Hfr1 Hinv)
              (frame_bounded _ _ Hfr1 Hbound) Hp1)
    as (Hinv2 & Hk2 & Hpoms2 & _ & _).
  pose proof (selectBroker_length e p w1) as Hlen2.
  assert (Hlen1 : length (pomH w1) = length (pomH w)).
  { unfold w1, upd_pom; simpl. apply length_alter. }
  destruct (selectBroker e p w1) as [w2 r]. simpl in *.
  assert (Hok2 : registry_ok w2).
  { apply (registry_ok_same w1); [done|done|]. by eapply frame_registry_ok. }
  destruct r as [err|]; intros H; inversion H; subst w'.
  - assert (Hfr3 : frame w2 (signal_rebalance p (handleError p err w2))).
    { eapply frame_trans; [apply frame_handleError|apply frame_signal_rebalance]. }
    split; [by eapply frame_refcount_inv|].
    split; [by eapply frame_registry_ok|].
    destruct Hfr3 as [Hk3 _ _ _ _]. rewrite <- !pom_keys_length in *. congruence.
  - split; [done|]. split; [done|]. congruence.
Qed.

Lemma frame_step_facts w w' :
  frame w w' -> refcount_inv w -> registry_ok w ->
  refcount_inv w' /\ registry_ok w' /\ length (pomH w') = length (pomH w).
Proof.
  intros Hfr Hinv Hok.
  split; [by eapply frame_refcount_inv|].
  split; [by eapply frame_registry_ok|].
  destruct Hfr as [Hk _ _ _ _]. by rewrite <- !pom_keys_length, Hk.
Qed.

Lemma frame_of_step l w w' :
  step l w = Some w' ->
  match l with
  | LManagePartition _ _ _ | LRebalance _ _ => True
  | _ => frame w w'
  end.
Proof.
  destruct l; simpl; try done.
  - destruct (bom_receive b w) as [o|] eqn:Hr; [|done]. simpl.
    intros H; inversion H; subst. by eapply frame_bom_receive.
  - intros H; inversion H. apply frame_flushToBroker.
  - intros H; inversion H. apply frame_abort_resume.
  - intros H; inversion H. by apply frame_upd_pom.
  - intros H; inversion H. by apply frame_upd_pom.
  - intros H; injection H as <-. exact (frame_refl w).
Qed.

Lemma step_length l w w' :
  step l w = Some w' -> (length (pomH w) <= length (pomH w'))%nat.
Proof.
  intros Hstep. pose proof (frame_of_step l w w' Hstep) as Hfr.
  assert (Hframe : frame w w' -> (length (pomH w) <= length (pomH w'))%nat).
  { intros [Hk _ _ _ _]. rewrite <- !pom_keys_length, Hk. done. }
  destruct l; try (by apply Hframe); simpl in Hstep.
  - destruct (ManagePartition e t part w) as [[w1 r]|] eqn:Hm; [|done].
    simpl in Hstep. inversion Hstep; subst w1.
    apply ManagePartition_length in Hm. lia.
  - unfold pom_mainLoop_iter in Hstep.
    destruct (pomH w !! p) as [s|]; [|done]. simpl in Hstep.
    destruct (chan_recv (rebalance s)) as [[u c]|]; [|done]. simpl in Hstep.
    pose proof (selectBroker_length e p (upd_pom p (set_rebalance c) w)) as Hl.
    destruct (selectBroker e p (upd_pom p (set_rebalance c) w)) as [w2 r].
    simpl in Hl. rewrite length_alter in Hl.
    destruct r; inversion Hstep; subst w'; [|lia].
    unfold signal_rebalance, handleError.
    destruct (ReturnErrors w2); simpl; rewrite ?length_alter; lia.
Qed.

Lemma step_facts l w w' :
  refcount_inv w -> registry_ok w -> bounded w' ->
  step l w = Some w' ->
  refcount_inv w' /\ registry_ok w'.
Proof.
  intros Hinv Hok Hbound Hstep.
  pose proof (step_length l w w' Hstep) as Hlen.
  assert (Hb : bounded w) by (unfold bounded in *; lia).
  pose proof (frame_of_step l w w' Hstep) as Hfr.
  assert (Hframe : frame w w' -> refcount_inv w' /\ registry_ok w').
  { intros H. destruct (frame_step_facts w w' H Hinv Hok) as (? & ? & _). done. }
  destruct l; try (by apply Hframe); simpl in Hstep.
  - destruct (ManagePartition e t part w) as [[w1 r]|] eqn:Hm; [|done].
    simpl in Hstep. inversion Hstep; subst w1.
    pose proof (ManagePartition_length _ _ _ _ _ _ Hm) as Hl.
    destruct (ManagePartition_facts e t part w Hinv Hok)
      as (w2 & r2 & Hm2 & Hinv2 & Hok2 & _).
    { unfold bounded in Hbound. lia. }
    rewrite Hm in Hm2. inversion Hm2; subst. done.
  - destruct (pom_mainLoop_iter_facts e p w w' Hinv Hok Hb Hstep) as (? & ? & _).
    done.
Qed.

Lemma new_facts g ret sz :
  refcount_inv (newOffsetManager g ret sz)
  /\ registry_ok (newOffsetManager g ret sz).
Proof.
  split; [split|].
  - intros brk b H. unfold newOffsetManager in H; simpl in H.
    by apply lookup_empty_Some in H.
  - intros p b H. done.
  - intros b m H. done.
  - intros t perTopic part p H. unfold newOffsetManager in H; simpl in H.
    by apply lookup_empty_Some in H.
Qed.

Lemma reachable_facts w :
  reachable w -> bounded w -> refcount_inv w /\ registry_ok w.
Proof.
  induction 1 as [g ret sz|l w w' Hreach IH Hstep]; intros Hbound.
  - apply new_facts.
  - pose proof (step_length l w w' Hstep) as Hlen.
    destruct IH as [Hinv Hok]; [unfold bounded in *; lia|].
    by eapply step_facts.
Qed.

Lemma registry_ok_no_two w : registry_ok w -> no_two_managers w.
Proof.
  intros Hok t1 part1 p1 t2 part2 p2 (m1 & Ht1 & Hp1) (m2 & Ht2 & Hp2) Hsame.
  rewrite (Hok _ _ _ _ Ht1 Hp1), (Hok _ _ _ _ Ht2 Hp2) in Hsame.
  inversion Hsame; subst. split; [done|]. split; [done|]. congruence.
Qed.

Lemma reachable_managed : reachable Scenario.managed.
Proof.
  apply (reachable_step (LManagePartition Scenario.coordinator7 "orders" 0)
           Scenario.initial); [apply reachable_new|].
  vm_compute. reflexivity.
Qed.

Lemma reachable_attached : reachable Scenario.attached.
Proof.
  apply (reachable_step (LReceive 0) Scenario.managed);
    [apply reachable_managed|].
  vm_compute. reflexivity.
Qed.

Lemma entry_managed : entry Scenario.managed "orders" 0 0.
Proof. exists {[ 0 := 0%nat ]}. split; vm_compute; reflexivity. Qed.

Lemma entry_attached : entry Scenario.attached "orders" 0 0.
Proof. exists {[ 0 := 0%nat ]}. split; vm_compute; reflexivity. Qed.

(** C1 as stated fails: ("orders", 0) is managed, and a second
    ManagePartition("orders", 0) made while the coordinator cannot be
    reached returns the client's error, not a configuration error: the new
    manager is built, with its network calls, before the registry is
    looked at. *)
Lemma duplicate_may_return_client_error :
  ~ duplicate_gives_configuration_error
  /\ snd <$> ManagePartition Duplicate.unreachable "orders" 0 Scenario.managed
       = Some (inl (ErrTransport "no coordinator")).
Proof.
  split; [|vm_compute; reflexivity].
  intros H.
  destruct (H Duplicate.unreachable "orders"%string 0 Scenario.managed 0%nat
              reachable_managed entry_managed) as (w' & msg & Heq).
  apply (f_equal (fmap snd)) in Heq. vm_compute in Heq. discriminate Heq.
Qed.

(** C1 amended: in every world that sequences of steps (ManagePartition
    calls among them) lead to, no (topic, partition) has two managers in
    the registry; a ManagePartition call for an occupied pair returns an
    error, which is the configuration error whenever the new manager
    itself could be built, and leaves the registry's partition mapping and
    the original manager's state as they were. *)
Theorem ManagePartition_keeps_one_manager
    (w : world) (e : client) (t : string) (part : Z) (orig : nat) :
  reachable w ->
  Z.of_nat (length (pomH w)) + 1 < 2 ^ 63 ->
  entry w t part orig ->
  no_two_managers w
  /\ exists w' err,
       ManagePartition e t part w = Some (w', inl err)
       /\ ((exists w1 p, newPartitionOffsetManager e t part w
                           = Some (w1, inr p)) ->
           err = ConfigurationError
                   "That topic/partition is already being managed")
       /\ poms w' = poms w
       /\ pomH w' !! orig = pomH w !! orig
       /\ no_two_managers w'.
Proof.
  intros Hreach Hbound Hentry.
  destruct (reachable_facts w Hreach) as [Hinv Hok];
    [unfold bounded; lia|].
  split; [by apply registry_ok_no_two|].
  destruct (ManagePartition_facts e t part w Hinv Hok Hbound)
    as (w' & r & Hm & Hinv' & Hok' & Hold & Hdup & _).
  destruct (Hdup orig Hentry) as (Hpoms & err & -> & Hconf).
  exists w', err. split; [done|]. split; [exact Hconf|]. split; [done|].
  split; [|by apply registry_ok_no_two].
  apply Hold. destruct Hentry as (perTopic & Ht & Hp).
  pose proof (Hok _ _ _ _ Ht Hp) as Hk. apply lookup_lt_Some in Hk.
  by rewrite pom_keys_length in Hk.
Qed.

Lemma ManagePartition_keeps_one_manager_witness :
  no_two_managers Scenario.attached
  /\ exists w' err,
       ManagePartition Scenario.coordinator7 "orders" 0 Scenario.attached
         = Some (w', inl err)
       /\ ((exists w1 p,
              newPartitionOffsetManager Scenario.coordinator7 "orders" 0
                Scenario.attached = Some (w1, inr p)) ->
           err = ConfigurationError
                   "That topic/partition is already being managed")
       /\ poms w' = poms Scenario.attached
       /\ pomH w' !! 0%nat = pomH Scenario.attached !! 0%nat
       /\ no_two_managers w'.
Proof.
  apply (ManagePartition_keeps_one_manager Scenario.attached
           Scenario.coordinator7 "orders" 0 0).
  - exact reachable_attached.
  - vm_compute. reflexivity.
  - exact entry_attached.
Defined.

Lemma ref_increments brk w b w' :
  refcount_inv w -> Z.of_nat (length (pomH w)) + 1 < 2 ^ 63 ->
  refBrokerOffsetManager brk w = (b, w') ->
  boms w' !! brk = Some b
  /\ match boms w !! brk with
     | Some b0 =>
         b = b0 /\ length (bomH w') = length (bomH w)
         /\ exists m, bomH w !! b = Some m
                      /\ bomH w' !! b = Some (set_refs (refs m + 1) m)
     | None =>
         b = length (bomH w)
         /\ bomH w' = bomH w ++ [set_refs 1 (newBrokerOffsetManager brk)]
     end.
Proof.
  intros Hinv Hbound. unfold refBrokerOffsetManager.
  destruct (boms w !! brk) as [b0|] eqn:Hbrk; intros H; inversion H; subst.
  - split; [done|]. split; [done|].
    split; [unfold upd_bom; simpl; apply length_alter|].
    pose proof (inv_registry w Hinv brk b Hbrk) as Hb.
    destruct (lookup_lt_is_Some_2 (bomH w) b Hb) as [m Hm].
    exists m. split; [done|]. rewrite lookup_upd_bom_eq, Hm. simpl.
    unfold incr_refs. rewrite wrap_int_small; [done|].
    pose proof (inv_refs w Hinv b m Hm) as Hr.
    pose proof (count_ptr_le b (pom_ptrs w)) as Hle.
    unfold pom_ptrs in Hle at 2. rewrite length_fmap in Hle.
    unfold pointing in Hr. lia.
  - split; [simpl; apply lookup_insert_eq|]. split; [done|].
    unfold upd_bom; simpl. by rewrite alter_app_last.
Qed.

Lemma unref_decrements b w m :
  refcount_inv w -> bounded w ->
  bomH w !! b = Some m -> 1 <= refs m ->
  exists m',
    bomH (unrefBrokerOffsetManager b w) !! b = Some m'
    /\ refs m' = refs m - 1
    /\ closed (newSubscriptions m')
         = (closed (newSubscriptions m) || bool_decide (refs m = 1))
    /\ boms (unrefBrokerOffsetManager b w)
         = if decide (refs m = 1 /\ boms w !! bom_broker m = Some b)
           then delete (bom_broker m) (boms w) else boms w.
Proof.
  intros Hinv Hbound Hm Hpos.
  assert (Hr : refs m < 2 ^ 63).
  { pose proof (inv_refs w Hinv b m Hm) as Hr.
    pose proof (count_ptr_le b (pom_ptrs w)) as Hle.
    unfold pom_ptrs in Hle at 2. rewrite length_fmap in Hle.
    unfold pointing in Hr. unfold bounded in Hbound. lia. }
  assert (Hw : wrap_int (refs m - 1) = refs m - 1)
    by (apply wrap_int_small; lia).
  exists (unref_result m). split; [|split; [|split]].
  - rewrite (unref_bomH b w m Hm). apply list_lookup_insert_eq.
    by eapply lookup_lt_Some.
  - apply refs_unref_result. lia.
  - unfold unref_result. rewrite Hw.
    destruct (decide (refs m - 1 = 0)) as [Hz|Hz]; simpl.
    + rewrite bool_decide_eq_true_2 by lia. by rewrite orb_true_r.
    + rewrite bool_decide_eq_false_2 by lia. by rewrite orb_false_r.
  - rewrite (unref_boms b w m Hm), Hw.
    destruct (decide (refs m - 1 = 0)) as [Hz|Hz].
    + destruct (decide (boms w !! bom_broker m = Some b)) as [He|He].
      * rewrite decide_True; [done|]. split; [lia|done].
      * rewrite decide_False; [done|]. tauto.
    + rewrite decide_False; [done|]. intros [? _]. lia.
Qed.

(** C4: in every world that sequences of steps lead to, the reference
    count of each broker manager is the number of partition managers that
    point at it (a step is a whole call, so no world lies inside a
    transition).  refBrokerOffsetManager makes the manager on the first
    reference and adds exactly one to the count; unrefBrokerOffsetManager
    takes one off, closes the attach channel exactly when the count
    reaches zero, and removes the registry entry exactly when, in
    addition, the entry is this manager.  Scenario B: two partitions with
    the same coordinator share one manager with count 2, and when one of
    them leaves, the count is 1 and the manager is alive. *)
Theorem refcount_is_number_of_pointers (w : world) (brk : nat) :
  reachable w ->
  Z.of_nat (length (pomH w)) + 1 < 2 ^ 63 ->
  (forall b m, bomH w !! b = Some m -> refs m = Z.of_nat (pointing b w))
  /\ (forall b w',
        refBrokerOffsetManager brk w = (b, w') ->
        boms w' !! brk = Some b
        /\ match boms w !! brk with
           | Some b0 =>
               b = b0 /\ length (bomH w') = length (bomH w)
               /\ exists m, bomH w !! b = Some m
                   /\ bomH w' !! b = Some (set_refs (refs m + 1) m)
           | None =>
               b = length (bomH w)
               /\ bomH w' = bomH w ++ [set_refs 1 (newBrokerOffsetManager brk)]
           end)
  /\ (forall b m,
        bomH w !! b = Some m -> 1 <= refs m ->
        exists m',
          bomH (unrefBrokerOffsetManager b w) !! b = Some m'
          /\ refs m' = refs m - 1
          /\ closed (newSubscriptions m')
               = (closed (newSubscriptions m) || bool_decide (refs m = 1))
          /\ boms (unrefBrokerOffsetManager b w)
               = if decide (refs m = 1 /\ boms w !! bom_broker m = Some b)
                 then delete (bom_broker m) (boms w) else boms w)
  /\ (pom_ptrs Shared.two = [Some 0%nat; Some 0%nat]
      /\ bom_refs Shared.two = [2]
      /\ pom_ptrs Shared.detached = [Some 1%nat; Some 0%nat]
      /\ bom_refs Shared.detached = [1; 1]
      /\ (closed ∘ newSubscriptions) <$> bomH Shared.detached !! 0%nat
           = Some false
      /\ boms Shared.detached !! 7%nat = Some 0%nat).
Proof.
  intros Hreach Hbound.
  destruct (reachable_facts w Hreach) as [Hinv Hok]; [unfold bounded; lia|].
  split; [apply (inv_refs w Hinv)|].
  split; [intros b w' Href; by apply ref_increments|].
  split; [intros b m Hm Hpos; apply unref_decrements;
          [done|unfold bounded; lia|done|done]|].
  by_computation.
Qed.

Lemma refcount_is_number_of_pointers_witness :
  refs (mkBom 7 true (make_chan 0) {[0%nat]} 1)
    = Z.of_nat (pointing 0 Scenario.attached).
Proof.
  refine (proj1 (refcount_is_number_of_pointers Scenario.attached 7
                   reachable_attached _) 0%nat _ _).
  - vm_compute. reflexivity.
  - vm_compute. reflexivity.
Defined.

(** ** More on the flush: what each subscription gets *)

Lemma flush_one_env response b s w w' :
  flush_one response b s w = Some w' ->
  ReturnErrors w' = ReturnErrors w /\ logged w `prefix_of` logged w'.
Proof.
  assert (Hhe : forall err w0,
            ReturnErrors (handleError s err w0) = ReturnErrors w0
            /\ logged w0 `prefix_of` logged (handleError s err w0)).
  { intros err w0. unfold handleError.
    destruct (ReturnErrors w0) eqn:Hret; simpl; [done|].
    split; [done|]. by apply prefix_app_r. }
  unfold flush_one, incomplete. destruct response as [resp|]; [|done]. simpl.
  destruct (pomH w !! s) as [pm|]; [|intros H; by inversion H].
  destruct (commit_Errors resp !! topic pm) as [perTopic|];
    [|intros H; inversion H; apply Hhe].
  destruct (perTopic !! partition pm) as [k|];
    [|intros H; inversion H; apply Hhe].
  destruct k; intros H; inversion H; first [done | apply Hhe].
Qed.

Lemma flush_loop_env resp b order : forall w w',
  flush_loop (Some resp) b order w = Returned w' ->
  ReturnErrors w' = ReturnErrors w /\ logged w `prefix_of` logged w'.
Proof.
  induction order as [|s order IH]; intros w w' H; cbn [flush_loop] in H.
  - by inversion H.
  - destruct (flush_one (Some resp) b s w) as [w1|] eqn:Hone; [|done].
    destruct (flush_one_env _ _ _ _ _ Hone) as [Hr1 Hl1].
    destruct (IH _ _ H) as [Hr2 Hl2]. split; [congruence|by etrans].
Qed.

(** The visit of one subscription within the loop: the worlds before and
    after the visit of [s], and the world the loop ends in. *)
Lemma flush_loop_at resp b s order w m pm :
  bomH w !! b = Some m -> NoDup order -> s ∈ order ->
  pomH w !! s = Some pm ->
  exists w1 m1 w2 w3,
    pomH w1 !! s = Some pm
    /\ bomH w1 !! b = Some m1
    /\ (s ∈ subscriptions m1 <-> s ∈ subscriptions m)
    /\ ReturnErrors w1 = ReturnErrors w
    /\ flush_one (Some resp) b s w1 = Some w2
    /\ flush_loop (Some resp) b order w = Returned w3
    /\ pomH w3 !! s = pomH w2 !! s
    /\ logged w2 `prefix_of` logged w3
    /\ forall m2, bomH w2 !! b = Some m2 ->
         exists m3, bomH w3 !! b = Some m3
                    /\ (s ∈ subscriptions m3 <-> s ∈ subscriptions m2).
Proof.
  intros Hm Hnd Hin Hpm.
  apply list_elem_of_split in Hin as (l1 & l2 & ->).
  apply NoDup_app in Hnd as (_ & Hl1 & Hnd).
  apply NoDup_cons in Hnd as [Hl2 _].
  assert (Hnot1 : s ∉ l1) by (intros Hin1; apply (Hl1 s Hin1); left).
  destruct (flush_loop_other resp b s l1 w Hnot1) as (w1 & Hrun1 & Hp1 & Hb1).
  destruct (Hb1 m Hm) as (m1 & Hm1 & Hiff1).
  destruct (flush_loop_env _ _ _ _ _ Hrun1) as [Hret1 _].
  destruct (flush_one (Some resp) b s w1) as [w2|] eqn:Hone.
  2:{ unfold flush_one in Hone. simpl in Hone.
      destruct (pomH w1 !! s) as [pm1|]; [|done].
      destruct (commit_Errors resp !! topic pm1) as [perTopic|]; [|done].
      destruct (perTopic !! partition pm1) as [k|]; [|done]. by destruct k. }
  destruct (flush_loop_other resp b s l2 w2 Hl2) as (w3 & Hrun3 & Hp3 & Hb3).
  destruct (flush_loop_env _ _ _ _ _ Hrun3) as [_ Hlog3].
  exists w1, m1, w2, w3.
  split; [congruence|]. do 4 (split; [done|]).
  split; [|done].
  rewrite (flush_loop_app _ _ _ _ _ _ Hrun1). cbn [flush_loop].
  by rewrite Hone.
Qed.

Lemma flush_success e o b w m resp :
  bomH w !! b = Some m ->
  CommitOffset e (bom_broker m) (constructRequest (ord_request o) w)
    = (Some resp, None) ->
  flushToBroker e o b w = flush_loop (Some resp) b (ord_response o) w.
Proof. intros Hm Hc. unfold flushToBroker. by rewrite Hm, Hc. Qed.





(** X2: when the commit succeeds with error code none for a subscribed
    partition, the flush leaves that partition manager exactly as it was
    (no error, no rebalance signal) and it stays subscribed. *)
Theorem flush_committed
    (e : client) (o : orders) (b s : nat) (w : world)
    (m : brokerOffsetManager) (pm : partitionOffsetManager)
    (resp : OffsetCommitResponse) (perTopic : gmap Z KError) :
  bomH w !! b = Some m ->
  CommitOffset e (bom_broker m) (constructRequest (ord_request o) w)
    = (Some resp, None) ->
  Permutation (ord_response o) (elements (subscriptions m)) ->
  s ∈ subscriptions m ->
  pomH w !! s = Some pm ->
  commit_Errors resp !! topic pm = Some perTopic ->
  perTopic !! partition pm = Some ErrNoError ->
  exists w' m',
    flushToBroker e o b w = Returned w'
    /\ bomH w' !! b = Some m' /\ s ∈ subscriptions m'
    /\ pomH w' !! s = Some pm.
Proof.
  intros Hm Hc Hperm Hs Hpm Htopic Hpart.
  rewrite (flush_success e o b w m resp Hm Hc).
  assert (Hin : s ∈ ord_response o).
  { rewrite Hperm. by apply elem_of_elements. }
  assert (Hnd : NoDup (ord_response o)).
  { rewrite Hperm. apply NoDup_elements. }
  destruct (flush_loop_at resp b s (ord_response o) w m pm Hm Hnd Hin Hpm)
    as (w1 & m1 & w2 & w3 & Hp1 & Hm1 & Hiff1 & _ & Hstep & Hrun & Hp3
        & _ & Hb3).
  assert (Hw2 : w2 = w1).
  { unfold flush_one in Hstep. simpl in Hstep.
    rewrite Hp1, Htopic, Hpart in Hstep. by inversion Hstep. }
  subst w2. destruct (Hb3 _ Hm1) as (m3 & Hm3 & Hiff3).
  exists w3, m3. split; [done|]. split; [done|].
  split; [tauto|congruence].
Qed.

Lemma flush_committed_witness :
  exists w' m',
    flushToBroker (Commit.answering Commit.accepted) Commit.visit 0
      Scenario.attached = Returned w'
    /\ bomH w' !! 0%nat = Some m' /\ 0%nat ∈ subscriptions m'
    /\ pomH w' !! 0%nat = Some Commit.pom0.
Proof.
  apply (flush_committed (Commit.answering Commit.accepted)
           Commit.visit 0 0 Scenario.attached Commit.bom0 Commit.pom0
           Commit.accepted {[ 0 := ErrNoError ]}).
  - vm_compute. reflexivity.
  - reflexivity.
  - vm_compute. apply Permutation_refl.
  - simpl. by apply elem_of_singleton.
  - vm_compute. reflexivity.
  - vm_compute. reflexivity.
  - vm_compute. reflexivity.
Defined.



(** ** More on abort *)





(** ** More on selectBroker and the loop of a partition manager *)

Lemma chan_send_wf {A} (x : A) (c : chan A) :
  chan_wf c -> chan_wf (chan_send x c).
Proof.
  intros [Hle Hfree]. unfold chan_wf, chan_send.
  destruct (length (buf c) <? cap c)%nat eqn:Hlt; simpl.
  - apply Nat.ltb_lt in Hlt. rewrite length_app. simpl.
    split; [lia|]. intros _. by apply Hfree.
  - apply Nat.ltb_ge in Hlt. split; [done|]. lia.
Qed.


Lemma chan_send_elem {A} (x : A) (c : chan A) :
  x ∈ chan_pending (chan_send x c).
Proof.
  unfold chan_send, chan_pending.
  destruct (length (buf c) <? cap c)%nat; simpl;
    rewrite !elem_of_app, list_elem_of_singleton; tauto.
Qed.

Lemma released_env p w :
  group (released p w) = group w
  /\ ReturnErrors (released p w) = ReturnErrors w
  /\ logged (released p w) = logged w
  /\ poms (released p w) = poms w
  /\ closedBrokers (released p w) = closedBrokers w.
Proof.
  unfold released. destruct (pomH w !! p ≫= broker) as [b|]; [|done].
  unfold unrefBrokerOffsetManager. simpl.
  destruct (bomH w !! b) as [m|]; [|done]. simpl.
  destruct (decide _); [|done]. by destruct (decide _).
Qed.

Lemma released_at p w pm :
  pomH w !! p = Some pm ->
  pomH (released p w) !! p = Some (set_broker None pm)
  /\ (forall b m, broker pm = Some b -> bomH w !! b = Some m ->
        bomH (released p w) !! b = Some (unref_result m))
  /\ (broker pm = None -> released p w = w).
Proof.
  intros Hpm. unfold released. rewrite Hpm. simpl.
  destruct (broker pm) as [b|] eqn:Hb.
  - split; [by rewrite lookup_upd_pom_eq, unref_pomH, Hpm|].
    split; [|done]. intros b' m Heq Hm. inversion Heq; subst b'.
    simpl. rewrite (unref_bomH b w m Hm). apply list_lookup_insert_eq.
    by eapply lookup_lt_Some.
  - split; [|done]. rewrite Hpm. f_equal. destruct pm. simpl in Hb.
    by rewrite Hb.
Qed.

(** X5: when the coordinator cannot be refreshed or resolved, selectBroker
    returns the client's error and leaves the manager detached: its broker
    pointer is nil, the reference it held has been given back (the broker
    manager went through unrefBrokerOffsetManager), and it is not sent on
    any attach channel; a manager that held no reference changes nothing. *)
Theorem selectBroker_failure
    (e : client) (p : nat) (w : world) (pm : partitionOffsetManager)
    (err : error) :
  pomH w !! p = Some pm ->
  RefreshCoordinator e (group w) = Some err
  \/ (RefreshCoordinator e (group w) = None
      /\ Coordinator e (group w) = inl err) ->
  exists w',
    selectBroker e p w = (w', Some err)
    /\ pomH w' !! p = Some (set_broker None pm)
    /\ poms w' = poms w
    /\ (forall b m, broker pm = Some b -> bomH w !! b = Some m ->
          bomH w' !! b = Some (unref_result m))
    /\ (broker pm = None -> w' = w).
Proof.
  intros Hpm Hfail. rewrite selectBroker_unfold. cbv zeta.
  destruct (released_env p w) as (Hg & _ & _ & Hpoms & _).
  destruct (released_at p w pm Hpm) as (Hat & Hunref & Hsame).
  rewrite Hg. exists (released p w).
  split; [|by repeat split].
  destruct Hfail as [->|[-> ->]]; done.
Qed.

Lemma selectBroker_failure_witness :
  exists w',
    selectBroker Retry.refusing 0 Scenario.attached
      = (w', Some Retry.failure)
    /\ pomH w' !! 0%nat = Some (set_broker None Commit.pom0)
    /\ bomH w' !! 0%nat = Some (unref_result Commit.bom0).
Proof.
  destruct (selectBroker_failure Retry.refusing 0 Scenario.attached
              Commit.pom0 Retry.failure)
    as (w' & Hsel & Hpom & _ & Hbom & _).
  - vm_compute. reflexivity.
  - left. reflexivity.
  - exists w'. split; [exact Hsel|]. split; [exact Hpom|].
    apply Hbom; [reflexivity|]. vm_compute. reflexivity.
Defined.

(** X6: when the client names the coordinator, selectBroker ends with the
    manager pointing at the broker manager the registry holds for that
    broker, waiting in that manager's attach channel, and counted in its
    reference count, which is at least 1. *)
Theorem selectBroker_success
    (e : client) (p brk : nat) (w : world) (pm : partitionOffsetManager) :
  refcount_inv w -> bounded w ->
  pomH w !! p = Some pm ->
  RefreshCoordinator e (group w) = None ->
  Coordinator e (group w) = inr brk ->
  exists w' b m',
    selectBroker e p w = (w', None)
    /\ boms w' !! brk = Some b
    /\ pomH w' !! p = Some (set_broker (Some b) pm)
    /\ bomH w' !! b = Some m'
    /\ p ∈ chan_pending (newSubscriptions m')
    /\ refs m' = Z.of_nat (pointing b w') /\ 1 <= refs m'.
Proof.
  intros Hinv Hbound Hpm Hrefresh Hcoord.
  assert (Hp : (p < length (pomH w))%nat) by by eapply lookup_lt_Some.
  destruct (selectBroker_facts e p w Hinv Hbound Hp) as (Hinv' & _).
  destruct (released_facts p w Hinv Hbound Hp) as (Hinv1 & _).
  destruct (released_env p w) as (Hg & _).
  destruct (released_at p w pm Hpm) as (Hat & _).
  revert Hinv'. rewrite selectBroker_unfold. cbv zeta.
  rewrite Hg, Hrefresh, Hcoord.
  set (w1 := released p w) in *.
  assert (Href : exists b w2 m,
            refBrokerOffsetManager brk w1 = (b, w2)
            /\ boms w2 !! brk = Some b /\ bomH w2 !! b = Some m
            /\ pomH w2 = pomH w1).
  { unfold refBrokerOffsetManager.
    destruct (boms w1 !! brk) as [b|] eqn:Hbrk.
    - pose proof (inv_registry w1 Hinv1 brk b Hbrk) as Hb.
      destruct (lookup_lt_is_Some_2 (bomH w1) b Hb) as [m Hm].
      eexists _, _, _. split; [done|]. split; [done|].
      split; [|done]. by rewrite lookup_upd_bom_eq, Hm.
    - eexists _, _, _. split; [done|].
      split; [simpl; apply lookup_insert_eq|]. split; [|done].
      unfold upd_bom; simpl. rewrite alter_app_last.
      rewrite lookup_app_r by done. by rewrite Nat.sub_diag. }
  destruct Href as (b & w2 & m & -> & Hreg & Hm & HpomH). simpl.
  intros Hinv'.
  set (w' := upd_bom b (attach p) (upd_pom p (set_broker (Some b)) w2)) in *.
  assert (Hpom' : pomH w' !! p = Some (set_broker (Some b) pm)).
  { unfold w', upd_bom, upd_pom. simpl.
    rewrite list_lookup_alter_eq, HpomH, Hat. by destruct pm. }
  assert (Hbom' : bomH w' !! b = Some (attach p m)).
  { unfold w'. rewrite lookup_upd_bom_eq. simpl. by rewrite Hm. }
  exists w', b, (attach p m).
  split; [done|]. split; [done|]. split; [done|]. split; [done|].
  split; [simpl; apply chan_send_elem|].
  pose proof (inv_refs w' Hinv' b _ Hbom') as Hr. split; [done|].
  rewrite Hr.
  assert (Hptr : pom_ptrs w' !! p = Some (Some b)).
  { rewrite pom_ptrs_lookup, Hpom'. done. }
  pose proof (count_ptr_pos b p (pom_ptrs w') Hptr). unfold pointing. lia.
Qed.

Lemma selectBroker_success_witness :
  exists w' b m',
    selectBroker Shared.coordinator8 0 Scenario.attached = (w', None)
    /\ boms w' !! 8%nat = Some b
    /\ pomH w' !! 0%nat = Some (set_broker (Some b) Commit.pom0)
    /\ bomH w' !! b = Some m'
    /\ 0%nat ∈ chan_pending (newSubscriptions m')
    /\ refs m' = Z.of_nat (pointing b w') /\ 1 <= refs m'.
Proof.
  apply (selectBroker_success Shared.coordinator8 0 8 Scenario.attached
           Commit.pom0).
  - apply reachable_facts; [exact reachable_attached|]. vm_compute. reflexivity.
  - vm_compute. reflexivity.
  - vm_compute. reflexivity.
  - reflexivity.
  - reflexivity.
Defined.




(** ** More on the loop of a broker manager *)

(** X8: when a partition manager waits in the attach channel, the receive
    case of bom.mainLoop takes the one that waited longest, adds it to the
    subscription set and goes on; the reference count, the registry and
    the partition managers stay as they were. *)
Theorem bom_receive_subscribes
    (b s : nat) (rest : list nat) (w : world) (m : brokerOffsetManager) :
  bomH w !! b = Some m ->
  chan_pending (newSubscriptions m) = s :: rest ->
  exists w' m',
    bom_receive b w = Some (Returned w')
    /\ bomH w' !! b = Some m'
    /\ subscriptions m' = {[s]} ∪ subscriptions m
    /\ chan_pending (newSubscriptions m') = rest
    /\ refs m' = refs m /\ timer m' = timer m
    /\ pomH w' = pomH w /\ boms w' = boms w /\ poms w' = poms w.
Proof.
  intros Hm Hpend. unfold bom_receive. rewrite Hm. simpl.
  unfold chan_recv. unfold chan_pending in Hpend. rewrite Hpend.
  eexists _, _. split; [reflexivity|].
  split; [by rewrite lookup_upd_bom_eq, Hm|]. simpl.
  split; [done|]. split; [|done].
  unfold chan_pending. simpl. apply take_drop.
Qed.

Lemma bom_receive_subscribes_witness :
  exists w' m',
    bom_receive 0 Scenario.managed = Some (Returned w')
    /\ bomH w' !! 0%nat = Some m'
    /\ subscriptions m' = {[0%nat]} ∪ ∅
    /\ chan_pending (newSubscriptions m') = []
    /\ refs m' = 1 /\ timer m' = true
    /\ pomH w' = pomH Scenario.managed /\ boms w' = boms Scenario.managed
    /\ poms w' = poms Scenario.managed.
Proof.
  apply (bom_receive_subscribes 0 0 [] Scenario.managed
           (mkBom 7 true (mkChan 0 [] [0%nat] false) ∅ 1)).
  - vm_compute. reflexivity.
  - reflexivity.
Defined.

(** X9: when the last reference to a broker manager is given back while
    nobody waits in its attach channel, the manager's loop ends at its
    next receive, with the timer stopped, and the registry no longer maps
    the broker to this manager. *)
Theorem last_unref_ends_broker_task
    (b : nat) (w : world) (m : brokerOffsetManager) :
  bomH w !! b = Some m ->
  refs m = 1 ->
  chan_pending (newSubscriptions m) = [] ->
  exists w',
    bom_receive b (unrefBrokerOffsetManager b w) = Some (Exited w')
    /\ (timer <$> bomH w' !! b) = Some false
    /\ (refs <$> bomH w' !! b) = Some 0
    /\ boms w' !! bom_broker m ≠ Some b.
Proof.
  intros Hm Hrefs Hpend.
  pose proof (unref_bomH b w m Hm) as Hb.
  pose proof (unref_boms b w m Hm) as Hreg.
  assert (Hres : unref_result m = close_newSubscriptions (set_refs 0 m)).
  { unfold unref_result. rewrite Hrefs. reflexivity. }
  rewrite Hres in Hb. rewrite Hrefs in Hreg.
  change (wrap_int (1 - 1)) with 0 in Hreg.
  rewrite decide_True in Hreg by done.
  assert (Hlook : bomH (unrefBrokerOffsetManager b w) !! b
                  = Some (close_newSubscriptions (set_refs 0 m))).
  { rewrite Hb. apply list_lookup_insert_eq. by eapply lookup_lt_Some. }
  unfold bom_receive. rewrite Hlook. simpl. unfold chan_recv. simpl.
  unfold chan_pending in Hpend. rewrite Hpend.
  eexists. split; [reflexivity|].
  rewrite lookup_upd_bom_eq, Hlook. simpl. split; [done|]. split; [done|].
  rewrite Hreg. destruct (decide (boms w !! bom_broker m = Some b)) as [He|He].
  - by rewrite lookup_delete_eq.
  - done.
Qed.

Lemma last_unref_ends_broker_task_witness :
  exists w',
    bom_receive 0 (unrefBrokerOffsetManager 0 Scenario.attached)
      = Some (Exited w')
    /\ (timer <$> bomH w' !! 0%nat) = Some false
    /\ (refs <$> bomH w' !! 0%nat) = Some 0
    /\ boms w' !! 7%nat ≠ Some 0%nat.
Proof.
  apply (last_unref_ends_broker_task 0 Scenario.attached Commit.bom0).
  - vm_compute. reflexivity.
  - reflexivity.
  - reflexivity.
Defined.

(** ** The attach channel of a registered manager is open *)

Lemma chan_send_closed {A} (x : A) (c : chan A) :
  closed (chan_send x c) = closed c.
Proof. unfold chan_send. by destruct (_ <? _)%nat. Qed.

Lemma chan_recv_closed {A} (x : A) (c c' : chan A) :
  chan_recv c = Some (x, c') -> closed c' = closed c.
Proof.
  unfold chan_recv. destruct (buf c ++ blocked c); [done|].
  intros H; by inversion H.
Qed.

Lemma same_ids_refl w : same_ids w w.
Proof. done. Qed.

Lemma same_ids_trans w1 w2 w3 :
  same_ids w1 w2 -> same_ids w2 w3 -> same_ids w1 w3.
Proof. unfold same_ids. congruence. Qed.

Lemma same_ids_upd_bom b f w :
  (forall m, bom_broker (f m) = bom_broker m
             /\ closed (newSubscriptions (f m)) = closed (newSubscriptions m)) ->
  same_ids w (upd_bom b f w).
Proof.
  intros Hf. unfold same_ids, bom_ids, upd_bom; simpl.
  apply fmap_alter_same. intros m. destruct (Hf m) as [-> ->]. done.
Qed.

Lemma same_ids_bomH w w' : bomH w' = bomH w -> same_ids w w'.
Proof. intros H. unfold same_ids, bom_ids. by rewrite H. Qed.

Lemma same_ids_handleError p err w : same_ids w (handleError p err w).
Proof. apply same_ids_bomH, bomH_handleError. Qed.

Lemma same_ids_notify_abort err s w : same_ids w (notify_abort err s w).
Proof.
  apply same_ids_bomH. unfold notify_abort, signal_rebalance. simpl.
  apply bomH_handleError.
Qed.

Lemma same_ids_foldl_notify err l : forall w,
  same_ids w (foldl (fun w s => notify_abort err s w) w l).
Proof.
  induction l as [|s l IH]; intros w; simpl; [done|].
  eapply same_ids_trans; [apply same_ids_notify_abort|apply IH].
Qed.

Lemma same_ids_abort_drain err b w :
  same_ids w (outcome_world (abort_drain err b w)).
Proof.
  unfold abort_drain. destruct (bomH w !! b) as [m|] eqn:Hm; [|done].
  assert (same_ids w (foldl (fun w s => notify_abort err s w)
                        (upd_bom b (set_newSubscriptions
                           (mkChan (cap (newSubscriptions m)) [] []
                              (closed (newSubscriptions m)))) w)
                        (chan_pending (newSubscriptions m)))) as H.
  { eapply same_ids_trans; [|apply same_ids_foldl_notify].
    unfold same_ids, bom_ids, upd_bom; simpl.
    rewrite (alter_as_insert _ _ _ m Hm).
    rewrite list_fmap_insert. simpl. apply list_insert_id.
    by rewrite list_lookup_fmap, Hm. }
  by destruct (closed (newSubscriptions m)).
Qed.

Lemma same_ids_abort err order b w :
  same_ids w (outcome_world (abort err order b w)).
Proof.
  unfold abort. destruct (bomH w !! b) as [m|] eqn:Hm; [|done].
  eapply same_ids_trans; [|apply same_ids_abort_drain].
  eapply same_ids_trans; [|apply same_ids_foldl_notify].
  apply same_ids_bomH. simpl. unfold abandonBroker. by rewrite Hm.
Qed.

Lemma same_ids_drop b s w :
  same_ids w (signal_rebalance s (upd_bom b (drop_subscription s) w)).
Proof.
  apply (same_ids_trans _ (upd_bom b (drop_subscription s) w)).
  - by apply same_ids_upd_bom.
  - by apply same_ids_bomH.
Qed.

Lemma same_ids_flush_one response b s w w' :
  flush_one response b s w = Some w' -> same_ids w w'.
Proof.
  unfold flush_one, incomplete. destruct response as [resp|]; [|done]. simpl.
  assert (Hinc : forall err,
            same_ids w (signal_rebalance s
                          (upd_bom b (drop_subscription s)
                             (handleError s err w)))).
  { intros err. eapply same_ids_trans;
      [apply same_ids_handleError|apply same_ids_drop]. }
  destruct (pomH w !! s) as [pm|]; [|intros H; by inversion H].
  destruct (commit_Errors resp !! topic pm) as [perTopic|];
    [|intros H; inversion H; apply Hinc].
  destruct (perTopic !! partition pm) as [k|];
    [|intros H; inversion H; apply Hinc].
  destruct k; intros H; inversion H;
    first [apply same_ids_refl | apply same_ids_drop | apply Hinc].
Qed.

Lemma same_ids_flush_loop response b order : forall w,
  same_ids w (outcome_world (flush_loop response b order w)).
Proof.
  induction order as [|s order IH]; intros w; simpl; [done|].
  destruct (flush_one response b s w) as [w'|] eqn:Hone; [|done].
  eapply same_ids_trans; [by eapply same_ids_flush_one|apply IH].
Qed.

Lemma same_ids_after_abort response o b w r :
  same_ids w (outcome_world r) ->
  same_ids w (outcome_world (after_abort response o b r)).
Proof.
  intros H. destruct r; simpl in *; try done.
  eapply same_ids_trans; [exact H|apply same_ids_flush_loop].
Qed.

Lemma same_ids_flushToBroker e o b w :
  same_ids w (outcome_world (flushToBroker e o b w)).
Proof.
  unfold flushToBroker, flush_with.
  destruct (bomH w !! b) as [m|]; [|done].
  destruct (CommitOffset e (bom_broker m) _) as [response [er|]].
  - apply same_ids_after_abort, same_ids_abort.
  - apply same_ids_flush_loop.
Qed.

Lemma same_ids_bom_receive b w o :
  bom_receive b w = Some o -> same_ids w (outcome_world o).
Proof.
  unfold bom_receive. destruct (bomH w !! b) as [m|] eqn:Hm; [|done]. simpl.
  destruct (chan_recv (newSubscriptions m)) as [[s c]|] eqn:Hrecv.
  - intros H; inversion H. simpl.
    unfold same_ids, bom_ids, upd_bom; simpl.
    rewrite (alter_as_insert _ _ _ m Hm).
    rewrite list_fmap_insert. simpl. apply list_insert_id.
    rewrite list_lookup_fmap, Hm. simpl.
    by rewrite (chan_recv_closed _ _ _ Hrecv).
  - destruct (closed (newSubscriptions m)); [|done].
    intros H; inversion H. by apply same_ids_upd_bom.
Qed.

Lemma open_inv_ext w w' :
  boms w' ⊆ boms w -> bom_ids w' = bom_ids w -> bom_refs w' = bom_refs w ->
  open_inv w -> open_inv w'.
Proof.
  intros Hreg Hids Hrefs [Ho Hc]. split.
  - intros brk b Hb. rewrite Hids. apply Ho. by eapply lookup_weaken.
  - intros b m' Hm' Hclosed.
    assert (Hid : bom_ids w !! b = Some (bom_broker m', true)).
    { rewrite <- Hids. unfold bom_ids. rewrite list_lookup_fmap, Hm'.
      simpl. by rewrite Hclosed. }
    assert (Hr : bom_refs w !! b = Some (refs m')).
    { rewrite <- Hrefs. unfold bom_refs. by rewrite list_lookup_fmap, Hm'. }
    unfold bom_ids in Hid. unfold bom_refs in Hr.
    rewrite list_lookup_fmap in Hid. rewrite list_lookup_fmap in Hr.
    destruct (bomH w !! b) as [m|] eqn:Hm; [|done]. simpl in *.
    injection Hid as _ Hcl. injection Hr as Hrf. rewrite <- Hrf.
    by apply (Hc b m Hm).
Qed.

Lemma frame_open_inv w w' :
  frame w w' -> same_ids w w' -> open_inv w -> open_inv w'.
Proof.
  intros [_ _ _ Hr Hb] Hids. by apply open_inv_ext.
Qed.

Lemma bom_ids_lookup b w :
  bom_ids w !! b
  = (fun m => (bom_broker m, closed (newSubscriptions m))) <$> bomH w !! b.
Proof. unfold bom_ids. apply list_lookup_fmap. Qed.

Lemma unref_open_inv p b w :
  refcount_inv w -> open_inv w -> bounded w ->
  pom_ptrs w !! p = Some (Some b) ->
  open_inv (unrefBrokerOffsetManager b w).
Proof.
  intros Hinv [Ho Hc] Hbound Hp.
  pose proof (inv_pointers w Hinv p b Hp) as Hb.
  destruct (lookup_lt_is_Some_2 (bomH w) b Hb) as [m Hm].
  pose proof (inv_refs w Hinv b m Hm) as Hr.
  pose proof (count_ptr_pos b p _ Hp) as Hpos.
  pose proof (count_ptr_le b (pom_ptrs w)) as Hle.
  unfold pom_ptrs in Hle at 2. rewrite length_fmap in Hle.
  unfold pointing in Hr. unfold bounded in Hbound.
  assert (Hw : wrap_int (refs m - 1) = refs m - 1)
    by (apply wrap_int_small; lia).
  pose proof (unref_bomH b w m Hm) as HbomH.
  pose proof (unref_boms b w m Hm) as Hboms.
  rewrite Hw in Hboms.
  split.
  - intros brk b' Hb'. rewrite bom_ids_lookup, HbomH.
    assert (Hold : boms w !! brk = Some b').
    { eapply lookup_weaken; [exact Hb'|apply unref_boms_subseteq]. }
    pose proof (Ho brk b' Hold) as Hid. rewrite bom_ids_lookup in Hid.
    destruct (decide (b = b')) as [<-|Hne].
    + rewrite Hm in Hid. simpl in Hid. injection Hid as Hbrk Hopen.
      rewrite list_lookup_insert_eq by done. simpl.
      unfold unref_result. rewrite Hw.
      destruct (decide (refs m - 1 = 0)) as [Hz|Hz]; simpl.
      * rewrite Hbrk in Hboms. rewrite decide_True in Hboms by done.
        rewrite Hboms, lookup_delete_eq in Hb'. done.
      * by rewrite Hbrk, Hopen.
    + by rewrite list_lookup_insert_ne.
  - intros b' m' Hm' Hclosed. rewrite HbomH in Hm'.
    destruct (decide (b = b')) as [<-|Hne].
    + rewrite list_lookup_insert_eq in Hm' by done.
      injection Hm' as <-. revert Hclosed. unfold unref_result. rewrite Hw.
      destruct (decide (refs m - 1 = 0)) as [Hz|Hz]; simpl; [done|].
      intros Hclosed. pose proof (Hc b m Hm Hclosed). lia.
    + rewrite list_lookup_insert_ne in Hm' by done. by eapply Hc.
Qed.

Lemma open_inv_upd_pom p f w : open_inv w -> open_inv (upd_pom p f w).
Proof. intros [Ho Hc]. by split. Qed.

Lemma acquire_open_inv p brk w b w2 :
  refcount_inv w -> open_inv w ->
  refBrokerOffsetManager brk w = (b, w2) ->
  open_inv (upd_bom b (attach p) (upd_pom p (set_broker (Some b)) w2)).
Proof.
  intros Hinv [Ho Hc] Href. unfold refBrokerOffsetManager in Href.
  destruct (boms w !! brk) as [b0|] eqn:Hbrk; inversion Href; subst;
    clear Href.
  - pose proof (inv_registry w Hinv brk b Hbrk) as Hb.
    destruct (lookup_lt_is_Some_2 (bomH w) b Hb) as [m Hm].
    pose proof (Ho brk b Hbrk) as Hid. rewrite bom_ids_lookup, Hm in Hid.
    simpl in Hid. injection Hid as Hbroker Hopen.
    assert (HbomH : bomH (upd_bom b (attach p)
                            (upd_pom p (set_broker (Some b))
                               (upd_bom b incr_refs w)))
                    = <[b := attach p (incr_refs m)]> (bomH w)).
    { unfold upd_bom, upd_pom; simpl. rewrite list_alter_alter_eq.
      by rewrite (alter_as_insert _ _ _ m Hm). }
    split.
    + intros brk' b' Hb'. rewrite bom_ids_lookup, HbomH.
      pose proof (Ho brk' b' Hb') as Hid'. rewrite bom_ids_lookup in Hid'.
      destruct (decide (b = b')) as [<-|Hne].
      * rewrite list_lookup_insert_eq by done. rewrite Hm in Hid'.
        simpl in *. by rewrite chan_send_closed.
      * by rewrite list_lookup_insert_ne.
    + intros b' m' Hm' Hclosed. rewrite HbomH in Hm'.
      destruct (decide (b = b')) as [<-|Hne].
      * rewrite list_lookup_insert_eq in Hm' by done. injection Hm' as <-.
        simpl in Hclosed. rewrite chan_send_closed in Hclosed. congruence.
      * rewrite list_lookup_insert_ne in Hm' by done. by eapply Hc.
  - set (b := length (bomH w)).
    set (new := attach p (incr_refs (newBrokerOffsetManager brk))).
    assert (HbomH : bomH (upd_bom b (attach p)
                            (upd_pom p (set_broker (Some b))
                               (upd_bom b incr_refs
                                  (with_boms (<[brk := b]> (boms w))
                                     (with_bomH (bomH w ++ [newBrokerOffsetManager brk]) w)))))
                    = bomH w ++ [new]).
    { unfold upd_bom, upd_pom; simpl. rewrite list_alter_alter_eq.
      apply alter_app_last. }
    split.
    + intros brk' b' Hb'. rewrite bom_ids_lookup, HbomH. simpl in Hb'.
      destruct (decide (brk = brk')) as [<-|Hne].
      * rewrite lookup_insert_eq in Hb'. injection Hb' as <-.
        rewrite lookup_app_r by done. by rewrite Nat.sub_diag.
      * rewrite lookup_insert_ne in Hb' by done.
        pose proof (Ho brk' b' Hb') as Hid. rewrite bom_ids_lookup in Hid.
        rewrite lookup_app_l; [done|]. by eapply inv_registry.
    + intros b' m' Hm' Hclosed. rewrite HbomH in Hm'.
      destruct (decide (b' < length (bomH w))%nat) as [Hlt|Hge].
      * rewrite lookup_app_l in Hm' by done. by eapply Hc.
      * rewrite lookup_app_r in Hm' by lia.
        destruct (b' - length (bomH w))%nat; simpl in Hm'; [|done].
        injection Hm' as <-. done.
Qed.

Lemma selectBroker_open_inv e p w :
  refcount_inv w -> open_inv w -> bounded w -> (p < length (pomH w))%nat ->
  open_inv (selectBroker e p w).1.
Proof.
  intros Hinv Hopen Hbound Hp. rewrite selectBroker_unfold. cbv zeta.
  destruct (released_facts p w Hinv Hbound Hp) as (Hinv1 & _).
  assert (Hopen1 : open_inv (released p w)).
  { unfold released.
    destruct (lookup_lt_is_Some_2 (pomH w) p Hp) as [pm Hpm].
    rewrite Hpm. simpl. destruct (broker pm) as [b|] eqn:Hb; [|done].
    apply open_inv_upd_pom. apply (unref_open_inv p); try done.
    rewrite pom_ptrs_lookup, Hpm. simpl. by rewrite Hb. }
  destruct (RefreshCoordinator e _); [done|].
  destruct (Coordinator e _) as [err|brk]; [done|].
  destruct (refBrokerOffsetManager brk (released p w)) as [b w2] eqn:Href.
  simpl. by eapply acquire_open_inv.
Qed.

Lemma open_inv_same w w' :
  boms w' = boms w -> bomH w' = bomH w -> open_inv w -> open_inv w'.
Proof.
  intros Hb Hh. apply open_inv_ext.
  - by rewrite Hb.
  - unfold bom_ids. by rewrite Hh.
  - unfold bom_refs. by rewrite Hh.
Qed.

Lemma fetchInitialOffset_boms e p w w' r :
  fetchInitialOffset e p w = Some (w', r) ->
  boms w' = boms w /\ bomH w' = bomH w.
Proof.
  unfold fetchInitialOffset.
  destruct (pomH w !! p) as [s|]; [|done]. simpl.
  destruct (broker s) as [b|]; [|done]. simpl.
  destruct (bomH w !! b) as [m|]; [|done]. simpl.
  destruct (FetchOffset e _ _) as [err|response];
    [intros H; by inversion H|].
  destruct (GetBlock response _ _) as [block|];
    [|intros H; by inversion H].
  destruct (fb_Err block); intros H; by inversion H.
Qed.

Lemma ManagePartition_boms e t part w w' r :
  ManagePartition e t part w = Some (w', r) ->
  boms w' = boms (selectBroker e (length (pomH w)) (allocated t part w)).1
  /\ bomH w' = bomH (selectBroker e (length (pomH w)) (allocated t part w)).1.
Proof.
  unfold ManagePartition. rewrite newPartitionOffsetManager_unfold. cbv zeta.
  destruct (selectBroker e (length (pomH w)) (allocated t part w))
    as [w1 r1]. simpl.
  destruct r1 as [err|]; simpl; [intros H; by inversion H|].
  destruct (fetchInitialOffset e (length (pomH w)) w1) as [[w2 r2]|] eqn:Hf;
    [|done]. simpl.
  destruct (fetchInitialOffset_boms _ _ _ _ _ Hf) as [Hb Hh].
  destruct r2 as [err|]; simpl; [intros H; inversion H; by subst|].
  destruct (poms w2 !! t) as [perTopic|]; simpl.
  - destruct (perTopic !! part); intros H; inversion H; by subst.
  - rewrite lookup_empty. intros H; inversion H; by subst.
Qed.

Lemma pom_mainLoop_iter_boms e p w w' :
  pom_mainLoop_iter e p w = Some w' ->
  exists s c,
    pomH w !! p = Some s
    /\ boms w' = boms (selectBroker e p (upd_pom p (set_rebalance c) w)).1
    /\ bomH w' = bomH (selectBroker e p (upd_pom p (set_rebalance c) w)).1.
Proof.
  unfold pom_mainLoop_iter.
  destruct (pomH w !! p) as [s|]; [|done]. simpl.
  destruct (chan_recv (rebalance s)) as [[u c]|]; [|done]. simpl.
  destruct (selectBroker e p (upd_pom p (set_rebalance c) w)) as [w2 r]
    eqn:Hsel.
  intros H. exists s, c. rewrite Hsel. split; [done|]. simpl.
  destruct r as [err|]; inversion H; subst; [|done].
  unfold signal_rebalance, handleError. by destruct (ReturnErrors w2).
Qed.

Lemma same_ids_of_step l w w' :
  step l w = Some w' ->
  match l with
  | LManagePartition _ _ _ | LRebalance _ _ => True
  | _ => same_ids w w'
  end.
Proof.
  destruct l; simpl; try done.
  - destruct (bom_receive b w) as [o|] eqn:Hr; [|done]. simpl.
    intros H; inversion H; subst. by eapply same_ids_bom_receive.
  - intros H; inversion H. apply same_ids_flushToBroker.
  - intros H; inversion H. apply same_ids_after_abort, same_ids_abort_drain.
  - intros H; inversion H. by apply same_ids_bomH.
  - intros H; inversion H. by apply same_ids_bomH.
  - intros H; injection H as <-. exact (same_ids_refl w).
Qed.

Lemma step_open_inv l w w' :
  refcount_inv w -> open_inv w -> bounded w' ->
  step l w = Some w' -> open_inv w'.
Proof.
  intros Hinv Hopen Hbound Hstep.
  pose proof (step_length l w w' Hstep) as Hlen.
  assert (Hb : bounded w) by (unfold bounded in *; lia).
  pose proof (frame_of_step l w w' Hstep) as Hfr.
  pose proof (same_ids_of_step l w w' Hstep) as Hids.
  destruct l; try (by eapply frame_open_inv); simpl in Hstep.
  - destruct (ManagePartition e t part w) as [[w1 r]|] eqn:Hm; [|done].
    simpl in Hstep. injection Hstep as ->.
    pose proof (ManagePartition_length _ _ _ _ _ _ Hm) as Hl.
    destruct (ManagePartition_boms _ _ _ _ _ _ Hm) as [Hboms HbomH].
    eapply open_inv_same; [exact Hboms|exact HbomH|].
    apply selectBroker_open_inv.
    + by apply allocated_inv.
    + by destruct Hopen.
    + unfold bounded, allocated in *; simpl. rewrite length_app; simpl. lia.
    + unfold allocated; simpl. rewrite length_app; simpl. lia.
  - destruct (pom_mainLoop_iter_boms _ _ _ _ Hstep)
      as (s & c & Hs & Hboms & HbomH).
    eapply open_inv_same; [exact Hboms|exact HbomH|].
    assert (Hfr1 : frame w (upd_pom p (set_rebalance c) w))
      by by apply frame_upd_pom.
    apply selectBroker_open_inv.
    + by eapply frame_refcount_inv.
    + by apply open_inv_upd_pom.
    + by eapply frame_bounded.
    + unfold upd_pom; simpl. rewrite length_alter. by eapply lookup_lt_Some.
Qed.

Lemma reachable_open_inv w : reachable w -> bounded w -> open_inv w.
Proof.
  induction 1 as [g ret sz|l w w' Hreach IH Hstep]; intros Hbound.
  - split.
    + intros brk b H. unfold newOffsetManager in H; simpl in H.
      by apply lookup_empty_Some in H.
    + intros b m H. done.
  - pose proof (step_length l w w' Hstep) as Hlen.
    assert (Hb : bounded w) by (unfold bounded in *; lia).
    destruct (reachable_facts w Hreach Hb) as [Hinv _].
    exact (step_open_inv l w w' Hinv (IH Hb) Hbound Hstep).
Qed.

(** X10: in every world that sequences of steps lead to, the manager the
    registry holds for a broker is a manager of that broker and its attach
    channel is open, so the send in selectBroker never meets a closed
    channel; and a broker manager some partition manager points at has an
    open attach channel, so unrefBrokerOffsetManager never closes a
    channel twice. *)
Theorem registered_attach_channel_open (w : world) :
  reachable w -> bounded w ->
  (forall brk b m,
     boms w !! brk = Some b -> bomH w !! b = Some m ->
     bom_broker m = brk /\ closed (newSubscriptions m) = false)
  /\ (forall p pm b m,
        pomH w !! p = Some pm -> broker pm = Some b ->
        bomH w !! b = Some m ->
        closed (newSubscriptions m) = false).
Proof.
  intros Hreach Hbound.
  destruct (reachable_facts w Hreach Hbound) as [Hinv _].
  destruct (reachable_open_inv w Hreach Hbound) as [Ho Hc].
  split.
  - intros brk b m Hb Hm. pose proof (Ho brk b Hb) as Hid.
    rewrite bom_ids_lookup, Hm in Hid. simpl in Hid. by injection Hid.
  - intros p pm b m Hpm Hbroker Hm.
    destruct (closed (newSubscriptions m)) eqn:Hclosed; [|done].
    pose proof (Hc b m Hm Hclosed) as Hz.
    pose proof (inv_refs w Hinv b m Hm) as Hr.
    assert (Hptr : pom_ptrs w !! p = Some (Some b)).
    { rewrite pom_ptrs_lookup, Hpm. simpl. by rewrite Hbroker. }
    pose proof (count_ptr_pos b p _ Hptr). unfold pointing in Hr. lia.
Qed.

Lemma registered_attach_channel_open_witness :
  bom_broker Commit.bom0 = 7%nat
  /\ closed (newSubscriptions Commit.bom0) = false.
Proof.
  refine (proj1 (registered_attach_channel_open Scenario.attached
                   reachable_attached _) 7%nat 0%nat Commit.bom0 _ _).
  - vm_compute. reflexivity.
  - vm_compute. reflexivity.
  - vm_compute. reflexivity.
Defined.

(** ** More on ManagePartition *)

Lemma ManagePartition_poms e t part w w' p :
  refcount_inv w -> Z.of_nat (length (pomH w)) + 1 < 2 ^ 63 ->
  ManagePartition e t part w = Some (w', inr p) ->
  poms w' = <[t := <[part := p]> (default ∅ (poms w !! t))]> (poms w)
  /\ default ∅ (poms w !! t) !! part = None.
Proof.
  intros Hinv Hbound.
  destruct (newPartitionOffsetManager_facts e t part w Hinv Hbound)
    as (w1 & r1 & Hnew & _ & Hpoms1 & _).
  unfold ManagePartition. rewrite Hnew. simpl.
  destruct r1 as [err|p1]; [intros H; by inversion H|].
  rewrite Hpoms1.
  destruct (poms w !! t) as [perTopic|] eqn:Ht; simpl.
  - destruct (perTopic !! part) as [orig|] eqn:Hpart;
      intros H; inversion H; subst. simpl. by rewrite Hpoms1.
  - rewrite lookup_empty. intros H; inversion H; subst. simpl.
    by rewrite insert_insert_eq, ?Hpoms1.
Qed.

(** X11: a ManagePartition call that succeeds returns a manager that did
    not exist before, registers it under its (topic, partition), which was
    free, and leaves every other entry of the registry and every existing
    partition manager as it was. *)
Theorem ManagePartition_success
    (e : client) (t : string) (part : Z) (w w' : world) (p : nat) :
  reachable w ->
  Z.of_nat (length (pomH w)) + 1 < 2 ^ 63 ->
  ManagePartition e t part w = Some (w', inr p) ->
  p = length (pomH w)
  /\ entry w' t part p
  /\ pom_keys w' !! p = Some (t, part)
  /\ (forall orig, ~ entry w t part orig)
  /\ (forall t' part' q,
        (t', part') ≠ (t, part) ->
        entry w' t' part' q <-> entry w t' part' q)
  /\ (forall q, (q < length (pomH w))%nat -> pomH w' !! q = pomH w !! q).
Proof.
  intros Hreach Hbound Hm.
  destruct (reachable_facts w Hreach) as [Hinv Hok]; [unfold bounded; lia|].
  destruct (ManagePartition_facts e t part w Hinv Hok Hbound)
    as (w2 & r2 & Hm2 & _ & Hok' & Hold & Hdup & Hnew).
  rewrite Hm in Hm2. injection Hm2 as <- <-.
  destruct (Hnew p eq_refl) as [Hp Hentry].
  destruct (ManagePartition_poms e t part w w' p Hinv Hbound Hm)
    as [Hpoms Hfree].
  split; [done|]. split; [done|].
  split. { destruct Hentry as (perTopic & Ht & Hpart). by eapply Hok'. }
  split.
  { intros orig Horig. destruct (Hdup orig Horig) as (_ & err & Herr & _).
    discriminate Herr. }
  split; [|done].
  intros t' part' q Hne. unfold entry. rewrite Hpoms.
  destruct (decide (t = t')) as [<-|Hnt].
  - rewrite lookup_insert_eq.
    assert (Hnp : part ≠ part') by congruence.
    split.
    + intros (perTopic & Ht & Hq). injection Ht as <-.
      rewrite lookup_insert_ne in Hq by done.
      destruct (poms w !! t) as [tm|]; simpl in Hq.
      * by exists tm.
      * by rewrite lookup_empty in Hq.
    + intros (perTopic & Ht & Hq). eexists. split; [done|].
      rewrite lookup_insert_ne by done. by rewrite Ht.
  - by rewrite lookup_insert_ne.
Qed.

Lemma ManagePartition_success_witness :
  1%nat = length (pomH Shared.one)
  /\ entry Shared.two "orders" 1 1
  /\ pom_keys Shared.two !! 1%nat = Some ("orders"%string, 1).
Proof.
  destruct (ManagePartition_success Shared.coordinator7 "orders" 1
              Shared.one Shared.two 1) as (Hp & Hentry & Hkey & _).
  - apply (reachable_step (LManagePartition Shared.coordinator7 "orders" 0)
             Scenario.initial); [apply reachable_new|].
    vm_compute. reflexivity.
  - vm_compute. reflexivity.
  - vm_compute. reflexivity.
  - split; [exact Hp|]. split; [exact Hentry|exact Hkey].
Defined.

Lemma selectBroker_result e p brk w :
  RefreshCoordinator e (group w) = None ->
  Coordinator e (group w) = inr brk ->
  (selectBroker e p w).2 = None.
Proof.
  intros Hrefresh Hcoord. rewrite selectBroker_unfold. cbv zeta.
  destruct (released_env p w) as (Hg & _). rewrite Hg, Hrefresh, Hcoord.
  by destruct (refBrokerOffsetManager brk (released p w)).
Qed.

(** X12: when the coordinator is resolved and the fetch of the initial
    offset then fails at the transport level, ManagePartition returns that
    error and registers nothing, but the manager it built stays behind:
    it still points at the coordinator's broker manager, whose reference
    count is one more than the number of managers that pointed at it
    before the call. *)
Theorem ManagePartition_fetch_failure_keeps_reference
    (e : client) (t : string) (part : Z) (brk : nat) (err : error)
    (w : world) :
  reachable w ->
  Z.of_nat (length (pomH w)) + 1 < 2 ^ 63 ->
  RefreshCoordinator e (group w) = None ->
  Coordinator e (group w) = inr brk ->
  (forall b req, FetchOffset e b req = inl err) ->
  exists w' b m,
    ManagePartition e t part w = Some (w', inl err)
    /\ poms w' = poms w
    /\ pom_ptrs w' = pom_ptrs w ++ [Some b]
    /\ bomH w' !! b = Some m
    /\ refs m = Z.of_nat (pointing b w) + 1.
Proof.
  intros Hreach Hbound Hrefresh Hcoord Hfetch.
  destruct (reachable_facts w Hreach) as [Hinv Hok]; [unfold bounded; lia|].
  set (p := length (pomH w)). set (w0 := allocated t part w).
  assert (Hinv0 : refcount_inv w0) by by apply allocated_inv.
  assert (Hb0 : bounded w0).
  { unfold bounded, w0, allocated; simpl. rewrite length_app; simpl. lia. }
  assert (Hp0 : (p < length (pomH w0))%nat).
  { unfold w0, allocated, p; simpl. rewrite length_app; simpl. lia. }
  destruct (selectBroker_facts e p w0 Hinv0 Hb0 Hp0)
    as (Hinv1 & _ & Hpoms1 & Hother1 & Hok1).
  pose proof (selectBroker_result e p brk w0 Hrefresh Hcoord) as Hres.
  pose proof (selectBroker_length e p w0) as Hlen1.
  unfold ManagePartition. rewrite newPartitionOffsetManager_unfold. cbv zeta.
  fold p. fold w0.
  destruct (selectBroker e p w0) as [w1 r1]. simpl in *. subst r1.
  destruct (Hok1 eq_refl) as [b Hb].
  pose proof (inv_pointers w1 Hinv1 p b Hb) as Hvalid.
  destruct (lookup_lt_is_Some_2 (bomH w1) b Hvalid) as [m Hm].
  assert (Hf : fetchInitialOffset e p w1 = Some (w1, Some err)).
  { unfold fetchInitialOffset. rewrite pom_ptrs_lookup in Hb.
    destruct (pomH w1 !! p) as [s|]; [|done]. simpl in *.
    injection Hb as Hb. rewrite Hb. simpl. rewrite Hm. simpl.
    by rewrite Hfetch. }
  rewrite Hf. simpl.
  assert (Hptrs : pom_ptrs w1 = pom_ptrs w ++ [Some b]).
  { apply list_eq. intros q. destruct (decide (q = p)) as [->|Hne].
    - rewrite Hb. rewrite lookup_app_r by (unfold pom_ptrs, p; by rewrite length_fmap).
      unfold pom_ptrs, p. by rewrite length_fmap, Nat.sub_diag.
    - rewrite pom_ptrs_lookup, Hother1 by done.
      unfold w0, allocated; simpl.
      destruct (decide (q < p)%nat) as [Hlt|Hge].
      + rewrite lookup_app_l by done.
        rewrite lookup_app_l by (unfold pom_ptrs; by rewrite length_fmap).
        by rewrite pom_ptrs_lookup.
      + rewrite !lookup_ge_None_2; [done| |].
        * rewrite length_app. unfold pom_ptrs. rewrite length_fmap.
          simpl. fold p. lia.
        * rewrite length_app. simpl. fold p. lia. }
  exists w1, b, m. split; [done|]. split; [done|]. split; [done|].
  split; [done|].
  rewrite (inv_refs w1 Hinv1 b m Hm). unfold pointing.
  rewrite Hptrs, count_ptr_app.
  replace (count_ptr b [Some b]) with 1%nat; [lia|].
  unfold count_ptr. rewrite filter_cons. by rewrite decide_True.
Qed.

Lemma ManagePartition_fetch_failure_keeps_reference_witness :
  exists w' b m,
    ManagePartition FetchFails.coordinator7 "orders" 1 Scenario.attached
      = Some (w', inl FetchFails.failure)
    /\ poms w' = poms Scenario.attached
    /\ pom_ptrs w' = pom_ptrs Scenario.attached ++ [Some b]
    /\ bomH w' !! b = Some m
    /\ refs m = Z.of_nat (pointing b Scenario.attached) + 1.
Proof.
  apply (ManagePartition_fetch_failure_keeps_reference
           FetchFails.coordinator7 "orders" 1 7 FetchFails.failure
           Scenario.attached).
  - exact reachable_attached.
  - vm_compute. reflexivity.
  - reflexivity.
  - reflexivity.
  - intros b req. reflexivity.
Defined.



(** ** The channels keep their shape *)

Lemma chan_recv_wf {A} (c c' : chan A) (x : A) :
  chan_recv c = Some (x, c') -> cap c' = cap c /\ chan_wf c'.
Proof.
  unfold chan_recv. destruct (buf c ++ blocked c) as [|y rest]; [done|].
  intros H; inversion H; subst; simpl. split; [done|].
  split; simpl.
  - rewrite length_take. lia.
  - rewrite length_take. intros Hlt. apply drop_ge. lia.
Qed.

Lemma keeps_refl w : keeps_channels w w.
Proof. by split. Qed.

Lemma keeps_trans w1 w2 w3 :
  keeps_channels w1 w2 -> keeps_channels w2 w3 -> keeps_channels w1 w3.
Proof.
  intros [H1 G1] [H2 G2]. split; [congruence|]. intros H. by apply G2, G1.
Qed.

Lemma keeps_same w w' :
  ChannelBufferSize w' = ChannelBufferSize w ->
  pomH w' = pomH w -> bomH w' = bomH w -> keeps_channels w w'.
Proof.
  intros Hs Hp Hb. split; [done|]. unfold channels_ok.
  by rewrite Hs, Hp, Hb.
Qed.

Lemma keeps_upd_pom p f w :
  (forall sz pm, pom_chans_ok sz pm -> pom_chans_ok sz (f pm)) ->
  keeps_channels w (upd_pom p f w).
Proof.
  intros Hf. split; [done|]. intros [Hp Hb]. split; [|done]. simpl.
  apply Forall_alter; [done|]. intros pm _. apply Hf.
Qed.

Lemma keeps_upd_bom b f w :
  (forall m, bom_chan_ok m -> bom_chan_ok (f m)) ->
  keeps_channels w (upd_bom b f w).
Proof.
  intros Hf. split; [done|]. intros [Hp Hb]. split; [done|]. simpl.
  apply Forall_alter; [done|]. intros m _. apply Hf.
Qed.

Lemma pom_chans_ok_errors sz err pm :
  pom_chans_ok sz pm ->
  pom_chans_ok sz (set_errors (chan_send err (errors pm)) pm).
Proof.
  intros (H1 & H2 & H3 & H4 & H5 & H6). unfold pom_chans_ok. simpl.
  rewrite chan_send_cap, chan_send_closed.
  split; [done|]. split; [by apply chan_send_wf|]. done.
Qed.

Lemma pom_chans_ok_rebalance sz pm :
  pom_chans_ok sz pm ->
  pom_chans_ok sz (set_rebalance (chan_send tt (rebalance pm)) pm).
Proof.
  intros (H1 & H2 & H3 & H4 & H5 & H6). unfold pom_chans_ok. simpl.
  rewrite chan_send_cap, chan_send_closed.
  do 4 (split; [done|]). split; [by apply chan_send_wf|]. done.
Qed.

Lemma keeps_handleError p err w : keeps_channels w (handleError p err w).
Proof.
  unfold handleError. destruct (ReturnErrors w).
  - apply keeps_upd_pom. intros sz pm. apply pom_chans_ok_errors.
  - by apply keeps_same.
Qed.

Lemma keeps_signal_rebalance p w : keeps_channels w (signal_rebalance p w).
Proof. apply keeps_upd_pom. intros sz pm. apply pom_chans_ok_rebalance. Qed.

Lemma keeps_notify_abort err s w : keeps_channels w (notify_abort err s w).
Proof.
  unfold notify_abort. eapply keeps_trans;
    [apply keeps_handleError|apply keeps_signal_rebalance].
Qed.

Lemma keeps_foldl_notify err l : forall w,
  keeps_channels w (foldl (fun w s => notify_abort err s w) w l).
Proof.
  induction l as [|s l IH]; intros w; simpl; [apply keeps_refl|].
  eapply keeps_trans; [apply keeps_notify_abort|apply IH].
Qed.

Lemma keeps_abort_drain err b w :
  keeps_channels w (outcome_world (abort_drain err b w)).
Proof.
  unfold abort_drain. destruct (bomH w !! b) as [m|] eqn:Hm;
    [|apply keeps_refl].
  assert (keeps_channels w
            (foldl (fun w s => notify_abort err s w)
               (upd_bom b (set_newSubscriptions
                  (mkChan (cap (newSubscriptions m)) [] []
                     (closed (newSubscriptions m)))) w)
               (chan_pending (newSubscriptions m)))) as H.
  { eapply keeps_trans; [|apply keeps_foldl_notify].
    split; [done|]. intros [Hp Hb]. split; [done|]. simpl.
    apply Forall_alter; [done|]. intros m0 Hm0 _.
    rewrite Hm in Hm0. injection Hm0 as <-.
    pose proof (Forall_lookup_1 _ _ _ _ Hb Hm) as [Hcap _].
    by split. }
  by destruct (closed (newSubscriptions m)).
Qed.

Lemma keeps_abort err order b w :
  keeps_channels w (outcome_world (abort err order b w)).
Proof.
  unfold abort. destruct (bomH w !! b) as [m|] eqn:Hm; [|apply keeps_refl].
  eapply keeps_trans; [|apply keeps_abort_drain].
  eapply keeps_trans; [|apply keeps_foldl_notify].
  apply keeps_same; simpl; unfold abandonBroker; by rewrite Hm.
Qed.

Lemma keeps_drop b s w :
  keeps_channels w (signal_rebalance s (upd_bom b (drop_subscription s) w)).
Proof.
  apply (keeps_trans _ (upd_bom b (drop_subscription s) w)).
  - by apply keeps_upd_bom.
  - apply keeps_signal_rebalance.
Qed.

Lemma keeps_flush_one response b s w w' :
  flush_one response b s w = Some w' -> keeps_channels w w'.
Proof.
  unfold flush_one, incomplete. destruct response as [resp|]; [|done]. simpl.
  assert (Hinc : forall err,
            keeps_channels w (signal_rebalance s
                                (upd_bom b (drop_subscription s)
                                   (handleError s err w)))).
  { intros err. eapply keeps_trans;
      [apply keeps_handleError|apply keeps_drop]. }
  destruct (pomH w !! s) as [pm|];
    [|intros H; inversion H; apply keeps_refl].
  destruct (commit_Errors resp !! topic pm) as [perTopic|];
    [|intros H; inversion H; apply Hinc].
  destruct (perTopic !! partition pm) as [k|];
    [|intros H; inversion H; apply Hinc].
  destruct k; intros H; inversion H;
    first [apply keeps_refl | apply keeps_drop | apply Hinc].
Qed.

Lemma keeps_flush_loop response b order : forall w,
  keeps_channels w (outcome_world (flush_loop response b order w)).
Proof.
  induction order as [|s order IH]; intros w; simpl; [apply keeps_refl|].
  destruct (flush_one response b s w) as [w'|] eqn:Hone; [|apply keeps_refl].
  eapply keeps_trans; [by eapply keeps_flush_one|apply IH].
Qed.

Lemma keeps_after_abort response o b w r :
  keeps_channels w (outcome_world r) ->
  keeps_channels w (outcome_world (after_abort response o b r)).
Proof.
  intros H. destruct r; simpl in *; try done.
  eapply keeps_trans; [exact H|apply keeps_flush_loop].
Qed.

Lemma keeps_flushToBroker e o b w :
  keeps_channels w (outcome_world (flushToBroker e o b w)).
Proof.
  unfold flushToBroker, flush_with.
  destruct (bomH w !! b) as [m|]; [|apply keeps_refl].
  destruct (CommitOffset e (bom_broker m) _) as [response [er|]].
  - apply keeps_after_abort, keeps_abort.
  - apply keeps_flush_loop.
Qed.

Lemma keeps_bom_receive b w o :
  bom_receive b w = Some o -> keeps_channels w (outcome_world o).
Proof.
  unfold bom_receive. destruct (bomH w !! b) as [m|] eqn:Hm; [|done]. simpl.
  destruct (chan_recv (newSubscriptions m)) as [[s c]|] eqn:Hrecv.
  - intros H; inversion H. simpl.
    split; [done|]. intros [Hp Hb]. split; [done|]. simpl.
    apply Forall_alter; [done|]. intros m0 Hm0 [Hcap _].
    rewrite Hm in Hm0. injection Hm0 as <-.
    unfold chan_recv in Hrecv.
    destruct (buf (newSubscriptions m) ++ blocked (newSubscriptions m));
      [done|].
    injection Hrecv as _ <-. split; simpl; [done|]. by rewrite Hcap.
  - destruct (closed (newSubscriptions m)); [|done].
    intros H; inversion H. by apply keeps_upd_bom.
Qed.

Lemma keeps_unref b w : keeps_channels w (unrefBrokerOffsetManager b w).
Proof.
  unfold unrefBrokerOffsetManager. destruct (bomH w !! b) as [m|];
    [|apply keeps_refl]. simpl.
  assert (H1 : keeps_channels w
                 (upd_bom b (set_refs (wrap_int (refs m - 1))) w))
    by by apply keeps_upd_bom.
  destruct (decide _); [|done].
  assert (H2 : keeps_channels w
                 (upd_bom b close_newSubscriptions
                    (upd_bom b (set_refs (wrap_int (refs m - 1))) w))).
  { eapply keeps_trans; [exact H1|]. by apply keeps_upd_bom. }
  destruct (decide _); [|done].
  eapply keeps_trans; [exact H2|]. by apply keeps_same.
Qed.

Lemma keeps_ref brk w : keeps_channels w (refBrokerOffsetManager brk w).2.
Proof.
  unfold refBrokerOffsetManager. destruct (boms w !! brk) as [b|]; simpl.
  - by apply keeps_upd_bom.
  - eapply keeps_trans; [|by apply keeps_upd_bom].
    split; [done|]. intros [Hp Hb]. split; [done|]. simpl.
    apply Forall_app. split; [done|]. by repeat constructor.
Qed.

Lemma bom_chan_ok_attach p m : bom_chan_ok m -> bom_chan_ok (attach p m).
Proof.
  unfold bom_chan_ok, attach, chan_send.
  destruct m as [brk tm [c bf bl cl] subs r]. simpl.
  intros [-> ->]. done.
Qed.

Lemma keeps_released p w : keeps_channels w (released p w).
Proof.
  unfold released. destruct (pomH w !! p ≫= broker) as [b|];
    [|apply keeps_refl].
  eapply keeps_trans; [apply keeps_unref|]. by apply keeps_upd_pom.
Qed.

Lemma keeps_selectBroker e p w : keeps_channels w (selectBroker e p w).1.
Proof.
  rewrite selectBroker_unfold. cbv zeta.
  pose proof (keeps_released p w) as Hrel.
  destruct (RefreshCoordinator e _); [done|].
  destruct (Coordinator e _) as [err|brk]; [done|].
  pose proof (keeps_ref brk (released p w)) as Href.
  destruct (refBrokerOffsetManager brk (released p w)) as [b w2]. simpl in *.
  eapply keeps_trans; [exact Hrel|]. eapply keeps_trans; [exact Href|].
  eapply keeps_trans; [by apply (keeps_upd_pom p (set_broker (Some b)))|].
  apply keeps_upd_bom. intros m. apply bom_chan_ok_attach.
Qed.

Lemma keeps_fetchInitialOffset e p w w' r :
  fetchInitialOffset e p w = Some (w', r) -> keeps_channels w w'.
Proof.
  unfold fetchInitialOffset.
  destruct (pomH w !! p) as [s|]; [|done]. simpl.
  destruct (broker s) as [b|]; [|done]. simpl.
  destruct (bomH w !! b) as [m|]; [|done]. simpl.
  destruct (FetchOffset e _ _) as [err|response];
    [intros H; inversion H; apply keeps_refl|].
  destruct (GetBlock response _ _) as [block|];
    [|intros H; inversion H; apply keeps_refl].
  destruct (fb_Err block); intros H; inversion H;
    first [apply keeps_refl | by apply keeps_upd_pom].
Qed.

Lemma keeps_allocated t part w : keeps_channels w (allocated t part w).
Proof.
  split; [done|]. intros [Hp Hb]. split; [|done]. simpl.
  apply Forall_app. split; [done|]. constructor; [|done].
  unfold pom_chans_ok, chan_wf. simpl. repeat split; lia.
Qed.

Lemma keeps_ManagePartition e t part w w' r :
  ManagePartition e t part w = Some (w', r) -> keeps_channels w w'.
Proof.
  unfold ManagePartition. rewrite newPartitionOffsetManager_unfold. cbv zeta.
  pose proof (keeps_selectBroker e (length (pomH w)) (allocated t part w))
    as Hsel.
  destruct (selectBroker e (length (pomH w)) (allocated t part w))
    as [w1 r1]. simpl in *.
  assert (H1 : keeps_channels w w1).
  { eapply keeps_trans; [apply keeps_allocated|exact Hsel]. }
  destruct r1 as [err|]; simpl; [intros H; inversion H; by subst|].
  destruct (fetchInitialOffset e (length (pomH w)) w1) as [[w2 r2]|] eqn:Hf;
    [|done]. simpl.
  assert (H2 : keeps_channels w w2).
  { eapply keeps_trans; [exact H1|by eapply keeps_fetchInitialOffset]. }
  destruct r2 as [err|]; simpl; [intros H; inversion H; by subst|].
  assert (H3 : keeps_channels w
                 (upd_pom (length (pomH w)) (set_running true) w2)).
  { eapply keeps_trans; [exact H2|]. by apply keeps_upd_pom. }
  destruct (poms w2 !! t) as [perTopic|]; simpl.
  - destruct (perTopic !! part); intros H; inversion H; subst; [done|].
    eapply keeps_trans; [exact H3|]. by apply keeps_same.
  - rewrite lookup_empty. intros H; inversion H; subst.
    eapply keeps_trans; [exact H3|]. by apply keeps_same.
Qed.

Lemma keeps_pom_mainLoop_iter e p w w' :
  pom_mainLoop_iter e p w = Some w' -> keeps_channels w w'.
Proof.
  unfold pom_mainLoop_iter.
  destruct (pomH w !! p) as [s|] eqn:Hs; [|done]. simpl.
  destruct (chan_recv (rebalance s)) as [[u c]|] eqn:Hrecv; [|done]. simpl.
  assert (H1 : keeps_channels w (upd_pom p (set_rebalance c) w)).
  { split; [done|]. intros [Hp Hb]. split; [|done]. simpl.
    apply Forall_alter; [done|]. intros pm Hpm.
    rewrite Hs in Hpm. injection Hpm as <-.
    intros (G1 & G2 & G3 & G4 & G5 & G6).
    destruct (chan_recv_wf _ _ _ Hrecv) as [Hcap Hwf].
    pose proof (chan_recv_closed _ _ _ Hrecv) as Hcl.
    unfold pom_chans_ok. simpl. rewrite Hcap, Hcl. done. }
  pose proof (keeps_selectBroker e p (upd_pom p (set_rebalance c) w)) as Hsel.
  destruct (selectBroker e p (upd_pom p (set_rebalance c) w)) as [w2 r].
  simpl in Hsel.
  assert (H2 : keeps_channels w w2) by by eapply keeps_trans.
  destruct r as [err|]; intros H; inversion H; subst; [|done].
  eapply keeps_trans; [exact H2|].
  eapply keeps_trans; [apply keeps_handleError|apply keeps_signal_rebalance].
Qed.

Lemma keeps_step l w w' : step l w = Some w' -> keeps_channels w w'.
Proof.
  destruct l; simpl.
  - destruct (ManagePartition e t part w) as [[w1 r]|] eqn:Hm; [|done].
    simpl. intros H; injection H as <-. by eapply keeps_ManagePartition.
  - apply keeps_pom_mainLoop_iter.
  - destruct (bom_receive b w) as [o|] eqn:Hr; [|done]. simpl.
    intros H; injection H as <-. by eapply keeps_bom_receive.
  - intros H; injection H as <-. apply keeps_flushToBroker.
  - intros H; injection H as <-. apply keeps_after_abort, keeps_abort_drain.
  - intros H; injection H as <-. by apply keeps_upd_pom.
  - intros H; injection H as <-. by apply keeps_upd_pom.
  - intros H; injection H as <-. apply keeps_refl.
Qed.

Lemma reachable_channels_ok w : reachable w -> channels_ok w.
Proof.
  induction 1 as [g ret sz|l w w' Hreach IH Hstep].
  - split; constructor.
  - by apply (keeps_step l w w' Hstep).
Qed.

(** X14: in every world that sequences of steps lead to, the error channel
    of a partition manager has the configured capacity and never buffers
    more errors than that, its rebalance channel has capacity 1 and never
    buffers more than one signal, and neither channel is ever closed (a
    reader of Errors() never sees the stream end); the attach channel of a
    broker manager is unbuffered. *)
Theorem channels_keep_their_shape (w : world) :
  reachable w ->
  (forall p pm,
     pomH w !! p = Some pm ->
     cap (errors pm) = ChannelBufferSize w
     /\ (length (buf (errors pm)) <= ChannelBufferSize w)%nat
     /\ closed (errors pm) = false
     /\ cap (rebalance pm) = 1%nat
     /\ (length (buf (rebalance pm)) <= 1)%nat
     /\ closed (rebalance pm) = false)
  /\ (forall b m,
        bomH w !! b = Some m ->
        cap (newSubscriptions m) = 0%nat /\ buf (newSubscriptions m) = []).
Proof.
  intros Hreach. destruct (reachable_channels_ok w Hreach) as [Hp Hb].
  split.
  - intros p pm Hpm.
    destruct (Forall_lookup_1 _ _ _ _ Hp Hpm)
      as (H1 & [H2 _] & H3 & H4 & [H5 _] & H6).
    rewrite <- H1 at 2. rewrite <- H4 at 2. done.
  - intros b m Hm. exact (Forall_lookup_1 _ _ _ _ Hb Hm).
Qed.

Lemma channels_keep_their_shape_witness :
  cap (errors Commit.pom0) = ChannelBufferSize Scenario.attached
  /\ (length (buf (errors Commit.pom0))
      <= ChannelBufferSize Scenario.attached)%nat
  /\ closed (errors Commit.pom0) = false
  /\ cap (rebalance Commit.pom0) = 1%nat
  /\ (length (buf (rebalance Commit.pom0)) <= 1)%nat
  /\ closed (rebalance Commit.pom0) = false.
Proof.
  refine (proj1 (channels_keep_their_shape Scenario.attached
                   reachable_attached) 0%nat Commit.pom0 _).
  vm_compute. reflexivity.
Defined.

(** ** Whole calls that succeed *)

Lemma selectBroker_at e p w pm :
  pomH w !! p = Some pm ->
  exists ob,
    pomH (selectBroker e p w).1 !! p = Some (set_broker ob pm)
    /\ ((selectBroker e p w).2 = None -> exists b, ob = Some b).
Proof.
  intros Hpm. rewrite selectBroker_unfold. cbv zeta.
  destruct (released_at p w pm Hpm) as (Hat & _).
  destruct (RefreshCoordinator e _).
  { exists None. split; [done|]. intros H; discriminate H. }
  destruct (Coordinator e _) as [err|brk].
  { exists None. split; [done|]. intros H; discriminate H. }
  pose proof (ref_pomH brk (released p w)) as HpomH.
  destruct (refBrokerOffsetManager brk (released p w)) as [b w2].
  simpl in *. exists (Some b). split; [|by eauto].
  rewrite list_lookup_alter_eq, HpomH, Hat. done.
Qed.

(** X15: when the pair is free, the coordinator is resolved and the fetch
    answers with a block for the pair whose error code is none,
    ManagePartition succeeds: it returns a new manager, registered under
    the pair, whose offset and metadata are the block's and whose
    background task has been started. *)
Theorem ManagePartition_returns_fetched_offset
    (e : client) (t : string) (part : Z) (brk : nat)
    (resp : OffsetFetchResponse) (blk : OffsetFetchResponseBlock)
    (w : world) :
  reachable w ->
  Z.of_nat (length (pomH w)) + 1 < 2 ^ 63 ->
  (forall orig, ~ entry w t part orig) ->
  RefreshCoordinator e (group w) = None ->
  Coordinator e (group w) = inr brk ->
  (forall b req, FetchOffset e b req = inr resp) ->
  GetBlock resp t part = Some blk ->
  fb_Err blk = ErrNoError ->
  exists w',
    ManagePartition e t part w = Some (w', inr (length (pomH w)))
    /\ Offset (length (pomH w)) w' = Some (fb_Offset blk)
    /\ Metadata (length (pomH w)) w' = Some (fb_Metadata blk)
    /\ (running <$> pomH w' !! length (pomH w)) = Some true
    /\ entry w' t part (length (pomH w)).
Proof.
  intros Hreach Hbound Hfree Hrefresh Hcoord Hfetch Hblk Herr.
  destruct (reachable_facts w Hreach) as [Hinv Hok]; [unfold bounded; lia|].
  set (p := length (pomH w)). set (w0 := allocated t part w).
  assert (Hinv0 : refcount_inv w0) by by apply allocated_inv.
  assert (Hb0 : bounded w0).
  { unfold bounded, w0, allocated; simpl. rewrite length_app; simpl. lia. }
  assert (Hp0 : (p < length (pomH w0))%nat).
  { unfold w0, allocated, p; simpl. rewrite length_app; simpl. lia. }
  assert (Hnew0 : pomH w0 !! p = Some (new_pom t part w)).
  { unfold w0, allocated, p; simpl. by apply list_lookup_middle. }
  destruct (selectBroker_facts e p w0 Hinv0 Hb0 Hp0)
    as (Hinv1 & _ & Hpoms1 & _ & _).
  pose proof (selectBroker_result e p brk w0 Hrefresh Hcoord) as Hres.
  destruct (selectBroker_at e p w0 _ Hnew0) as (ob & Hat & Hsome).
  unfold ManagePartition. rewrite newPartitionOffsetManager_unfold. cbv zeta.
  fold p. fold w0.
  destruct (selectBroker e p w0) as [w1 r1]. simpl in *. subst r1.
  destruct (Hsome eq_refl) as [b ->].
  assert (Hptr : pom_ptrs w1 !! p = Some (Some b)).
  { by rewrite pom_ptrs_lookup, Hat. }
  pose proof (inv_pointers w1 Hinv1 p b Hptr) as Hvalid.
  destruct (lookup_lt_is_Some_2 (bomH w1) b Hvalid) as [m Hm].
  assert (Hf : fetchInitialOffset e p w1
               = Some (upd_pom p (fun s => set_metadata (fb_Metadata blk)
                                             (set_offset (fb_Offset blk) s))
                         w1, None)).
  { unfold fetchInitialOffset. rewrite Hat. simpl. rewrite Hm. simpl.
    by rewrite Hfetch, Hblk, Herr. }
  rewrite Hf. simpl. rewrite Hpoms1.
  assert (Hnone : default ∅ (poms w !! t) !! part = None).
  { destruct (poms w !! t) as [perTopic|] eqn:Ht; simpl; [|done].
    destruct (perTopic !! part) as [orig|] eqn:Hpart; [|done].
    destruct (Hfree orig). by exists perTopic. }
  destruct (poms w !! t) as [perTopic|] eqn:Ht; simpl in *.
  - rewrite Hnone. eexists. split; [reflexivity|].
    unfold Offset, Metadata. simpl.
    rewrite !list_lookup_alter_eq, Hat. simpl.
    do 3 (split; [done|]).
    eexists. split; [apply lookup_insert_eq|apply lookup_insert_eq].
  - rewrite lookup_empty. eexists. split; [reflexivity|].
    unfold Offset, Metadata. simpl.
    rewrite !list_lookup_alter_eq, Hat. simpl.
    do 3 (split; [done|]).
    eexists. split; [apply lookup_insert_eq|apply lookup_insert_eq].
Qed.

Lemma ManagePartition_returns_fetched_offset_witness :
  exists w',
    ManagePartition Shared.coordinator7 "orders" 1 Shared.one
      = Some (w', inr (length (pomH Shared.one)))
    /\ Offset (length (pomH Shared.one)) w' = Some 17
    /\ Metadata (length (pomH Shared.one)) w' = Some "n"%string
    /\ (running <$> pomH w' !! length (pomH Shared.one)) = Some true
    /\ entry w' "orders" 1 (length (pomH Shared.one)).
Proof.
  apply (ManagePartition_returns_fetched_offset Shared.coordinator7
           "orders" 1 7 Shared.response (mkFetchBlock 17 "n" ErrNoError)
           Shared.one).
  - apply (reachable_step (LManagePartition Shared.coordinator7 "orders" 0)
             Scenario.initial); [apply reachable_new|].
    vm_compute. reflexivity.
  - vm_compute. reflexivity.
  - intros orig (perTopic & Ht & Hpart).
    assert (Hlook : poms Shared.one !! "orders"%string
                    = Some ({[0 := 0%nat]} : gmap Z nat))
      by (vm_compute; reflexivity).
    rewrite Hlook in Ht. injection Ht as <-.
    rewrite lookup_singleton_ne in Hpart; done.
  - reflexivity.
  - reflexivity.
  - intros b req. reflexivity.
  - vm_compute. reflexivity.
  - reflexivity.
Defined.

(** X16: when a rebalance signal is pending and the client names the
    coordinator, one iteration of pom.mainLoop takes the signal and
    attaches the manager again: afterwards it points at a broker manager
    that exists and counts it, nothing was sent on its error channel and
    nothing was put back on its rebalance channel, and its offset and
    metadata are as before. *)
Theorem mainLoop_iter_rebalances
    (e : client) (p brk : nat) (w : world) (pm : partitionOffsetManager)
    (c : chan unit) :
  reachable w -> bounded w ->
  pomH w !! p = Some pm ->
  chan_recv (rebalance pm) = Some (tt, c) ->
  RefreshCoordinator e (group w) = None ->
  Coordinator e (group w) = inr brk ->
  exists w' b m,
    pom_mainLoop_iter e p w = Some w'
    /\ pomH w' !! p = Some (set_broker (Some b) (set_rebalance c pm))
    /\ chan_pending (rebalance pm) = tt :: chan_pending c
    /\ bomH w' !! b = Some m
    /\ refs m = Z.of_nat (pointing b w') /\ 1 <= refs m.
Proof.
  intros Hreach Hbound Hpm Hrecv Hrefresh Hcoord.
  destruct (reachable_facts w Hreach Hbound) as [Hinv _].
  unfold pom_mainLoop_iter. rewrite Hpm. simpl. rewrite Hrecv. simpl.
  set (w1 := upd_pom p (set_rebalance c) w).
  assert (Hfr1 : frame w w1) by by apply frame_upd_pom.
  assert (Hp1 : pomH w1 !! p = Some (set_rebalance c pm)).
  { unfold w1. by rewrite lookup_upd_pom_eq, Hpm. }
  assert (Hlt1 : (p < length (pomH w1))%nat) by by eapply lookup_lt_Some.
  destruct (selectBroker_facts e p w1 (frame_refcount_inv _ _ Hfr1 Hinv)
              (frame_bounded _ _ Hfr1 Hbound) Hlt1) as (Hinv2 & _).
  pose proof (selectBroker_result e p brk w1 Hrefresh Hcoord) as Hres.
  destruct (selectBroker_at e p w1 _ Hp1) as (ob & Hat & Hsome).
  destruct (selectBroker e p w1) as [w2 r]. simpl in *. subst r.
  destruct (Hsome eq_refl) as [b ->].
  assert (Hptr : pom_ptrs w2 !! p = Some (Some b)).
  { by rewrite pom_ptrs_lookup, Hat. }
  pose proof (inv_pointers w2 Hinv2 p b Hptr) as Hvalid.
  destruct (lookup_lt_is_Some_2 (bomH w2) b Hvalid) as [m Hm].
  exists w2, b, m. split; [done|]. split; [done|].
  split; [by apply chan_recv_pending|]. split; [done|].
  pose proof (inv_refs w2 Hinv2 b m Hm) as Hr. split; [done|].
  rewrite Hr. pose proof (count_ptr_pos b p _ Hptr). unfold pointing. lia.
Qed.

Lemma mainLoop_iter_rebalances_witness :
  exists w' b m,
    pom_mainLoop_iter Shared.coordinator8 0 Rebalance.moved = Some w'
    /\ pomH w' !! 0%nat
         = Some (set_broker (Some b)
                   (set_rebalance (mkChan 1 [] [] false)
                      (set_rebalance (mkChan 1 [tt] [] false) Commit.pom0)))
    /\ chan_pending (mkChan 1 [tt] [] false)
         = tt :: chan_pending (mkChan 1 [] [] false)
    /\ bomH w' !! b = Some m
    /\ refs m = Z.of_nat (pointing b w') /\ 1 <= refs m.
Proof.
  apply (mainLoop_iter_rebalances Shared.coordinator8 0 8 Rebalance.moved
           (set_rebalance (mkChan 1 [tt] [] false) Commit.pom0)
           (mkChan 1 [] [] false)).
  - apply (reachable_step (LTick Moved.coordinator7 Moved.visit 0)
             Scenario.attached); [exact reachable_attached|].
    vm_compute. reflexivity.
  - vm_compute. reflexivity.
  - vm_compute. reflexivity.
  - reflexivity.
  - reflexivity.
  - reflexivity.
Defined.
